(** * The WebAssembly IR of tools/optimizer/wasm.h and its printer

    A shallow embedding of [tools/optimizer/wasm.h]: the arena allocator,
    the [Var] identifier, basic types and literals, the expression classes
    with their [print] methods, and the module-level declarations.

    Conventions of the embedding.
    - A [std::ostream&] that is only ever appended to is modelled by the text
      a call appends: a printer returns an [outcome], either [Out s] (the
      call returned after appending [s], the stream still good), [Bad s]
      (the call returned, but the stream went bad after [s]: a null
      [const char*] was streamed, and nothing written to the stream from
      then on appears) or [Fault f s] (the call stopped with fault [f] after
      appending [s]).
    - [abort()] and a failing [assert] are the faults [Aborted] and
      [AssertFailed].
    - [unsigned] and [int] values are [N] / [Z] with the wrap-around of the
      32-bit type written out where the code does arithmetic on them.
    - Several printers of the source ([printFullLine], [Const::print],
      [printParamsAndResult], [Module::print]) have no [return] statement;
      their callers ignore the returned stream, and the embedding gives them
      the behaviour of their statements. *)

From Stdlib Require Import ZArith NArith Lia List Bool Ascii String.
From Stdlib.Strings Require Import Byte.
From Stdlib Require Import DecimalString DecimalN DecimalZ.
From Stdlib Require Import Sorted OrderedTypeEx.
Import ListNotations.

Set Warnings "-register-all".
Local Open Scope string_scope.

(** ** Output streams and faults *)

Inductive fault : Type :=
| Aborted        (* abort() was called *)
| AssertFailed   (* an assert(...) did not hold *)
| PureVirtual    (* the class does not override Expression::print *)
| WildPointer.   (* a union member was read that was not the one stored *)

Inductive outcome : Type :=
| Out (s : string)
| Bad (s : string)   (* returned; the stream has its badbit set since [s] *)
| Fault (f : fault) (s : string).

(** [o << s] *)
Definition emit (s : string) : outcome := Out s.

(** Sequencing of two statements writing to the same stream: the second one
    does not run when the first one stopped; when the first one left the
    stream bad the second one runs, and may stop, but writes nothing. *)
Definition seq (a b : outcome) : outcome :=
  match a with
  | Out s =>
      match b with
      | Out t => Out (s ++ t)
      | Bad t => Bad (s ++ t)
      | Fault f t => Fault f (s ++ t)
      end
  | Bad s =>
      match b with
      | Fault f _ => Fault f s
      | _ => Bad s
      end
  | Fault f s => Fault f s
  end.

Notation "a ;; b" := (seq a b) (at level 61, right associativity).

(** [for (auto x : l) body(x);] *)
Definition for_each {A : Type} (body : A -> outcome) : list A -> outcome :=
  fix go (l : list A) : outcome :=
    match l with
    | [] => Out ""
    | x :: rest => body x ;; go rest
    end.

Definition nl : string := String "010"%char "".

(** Results of fallible constructors and of [Arena::alloc]. *)
Inductive res (A : Type) : Type :=
| Ok (a : A)
| Err (f : fault).
Arguments Ok {A} a.
Arguments Err {A} f.

(** ** 32-bit unsigned arithmetic *)

Definition u32 (n : N) : N := (n mod 2 ^ 32)%N.

(** [o << n] for an unsigned value, and for a signed one. *)
Definition show_unsigned (n : N) : string :=
  NilEmpty.string_of_uint (N.to_uint n).

Definition show_int (z : Z) : string :=
  NilEmpty.string_of_int (Z.to_int z).

(** [o << b] for a [bool] (no boolalpha): 1 or 0. *)
Definition show_bool (b : bool) : string := if b then "1" else "0".

(** ** Arena (lines 16-45) *)

Definition CHUNK : Z := 10000.

(** The storage of a [new char[CHUNK]]: a byte that was never written is
    [None]. *)
Definition chunk : Type := list (option byte).

Definition fresh_chunk : chunk := repeat None (Z.to_nat CHUNK).

Record Arena : Type := mkArena { chunks : list chunk; index : Z }.

(** A [T*] returned by [alloc]: the chunk pointed into (its position in
    [chunks]) and the offset in it. *)
Record pointer : Type := mkPointer { pointer_chunk : nat; pointer_offset : Z }.

(** A type [T] is given by the object representation of [T()]; [sizeof(T)]
    is its length. *)
Definition sizeof (T : list byte) : Z := Z.of_nat (List.length T).

(** Conversion to [size_t] (64 bits) and to [int] (32 bits). *)
Definition to_size_t (z : Z) : Z := (z mod 2 ^ 64)%Z.

Definition to_int (z : Z) : Z := ((z + 2 ^ 31) mod 2 ^ 32 - 2 ^ 31)%Z.

(** [(sizeof(T) + 7) & (-8)], computed in [size_t]. *)
Definition aligned_size (T : list byte) : Z :=
  Z.land (to_size_t (sizeof T + 7)) (to_size_t (-8)).

(** Replace the element at position [n]. *)
Fixpoint update_nth {A : Type} (n : nat) (f : A -> A) (l : list A) : list A :=
  match l, n with
  | [], _ => []
  | x :: rest, O => f x :: rest
  | x :: rest, S n' => x :: update_nth n' f rest
  end.

Definition write_chunk (off : nat) (data : list (option byte)) (c : chunk)
  : chunk :=
  (firstn off c ++ data ++ skipn (off + List.length data) c)%list.

(** [new (ret) T()]: the object representation of [T()] is stored at [ret]. *)
Definition construct_at (ret : pointer) (T : list byte) (cs : list chunk)
  : list chunk :=
  update_nth (pointer_chunk ret)
             (write_chunk (Z.to_nat (pointer_offset ret)) (map Some T)) cs.

(** [Arena::alloc<T>()] *)
Definition alloc (T : list byte) (a : Arena) : res (pointer * Arena) :=
  let currSize := aligned_size T in
  if negb (currSize <? CHUNK)%Z then Err AssertFailed
  else
    let a1 :=
      if (List.length (chunks a) =? 0)%nat
         || (to_size_t (to_size_t (index a) + currSize) >=? CHUNK)%Z
      then mkArena (chunks a ++ [fresh_chunk])%list 0
      else a in
    let ret := mkPointer (List.length (chunks a1) - 1) (index a1) in
    let a2 :=
      mkArena (chunks a1)
              (to_int (to_size_t (to_size_t (index a1) + currSize))) in
    Ok (ret, mkArena (construct_at ret T (chunks a2)) (index a2)).

(** [Arena::clear] *)
Definition clear (a : Arena) : Arena := mkArena [] (index a).

(** The [len] bytes stored at [p]. *)
Definition read (a : Arena) (p : pointer) (len : nat) : list (option byte) :=
  firstn len (skipn (Z.to_nat (pointer_offset p))
                    (nth (pointer_chunk p) (chunks a) [])).

(** [p] points to [len] bytes inside one of the arena's chunks. *)
Definition valid_pointer (a : Arena) (p : pointer) (len : nat) : Prop :=
  (pointer_chunk p < List.length (chunks a))%nat /\
  (0 <= pointer_offset p)%Z /\
  (pointer_offset p + Z.of_nat len <= CHUNK)%Z.

(** A run of allocations, one per listed type, with the pointers returned. *)
Fixpoint alloc_all (Ts : list (list byte)) (a : Arena)
  : res (list pointer * Arena) :=
  match Ts with
  | [] => Ok ([], a)
  | T :: rest =>
      match alloc T a with
      | Err f => Err f
      | Ok (p, a') =>
          match alloc_all rest a' with
          | Err f => Err f
          | Ok (ps, a'') => Ok (p :: ps, a'')
          end
      end
  end.

(** ** Indentation (lines 47-61) *)

(** [doIndent]: [indent] times two blanks. *)
Definition indentation (indent : N) : string :=
  N.iter indent (fun s => "  " ++ s) "".

Definition doIndent (indent : N) : outcome := emit (indentation indent).

(** [incIndent(o, indent)]: a line break; [indent++] on the caller's
    variable, returned as the second component. *)
Definition incIndent (indent : N) : outcome * N :=
  (emit nl, u32 (indent + 1)).

(** [decIndent(o, indent)]: [indent--], then the indentation and the closing
    delimiter. *)
Definition decIndent (indent : N) : outcome * N :=
  let indent' := u32 (indent + (2 ^ 32 - 1)) in
  (doIndent indent' ;; emit ")", indent').

(** ** Names (line 65) *)

(** Modelled from the spec: [cashew::IString], of which [Name] is a typedef,
    is not part of wasm.h.  An IString is a pointer to interned characters:
    [ptr] is the pointer itself and [str] the text it points to.  The
    pointer may be null ([Name()], and [NameType() : name(nullptr)] at line
    544): the null name is the one with [ptr] 0, and its [str] stands for
    nothing.  Two IStrings are [==] when they are the same pointer; the
    ordering used when a [Name] is the key of a [std::map] is the ordering
    of the texts (the name-sorted order of the spec), the null name counting
    as the empty text. *)
Record Name : Type := mkName { str : string; ptr : N }.

Definition Name_is_null (a : Name) : bool := (ptr a =? 0)%N.

Definition Name_text (a : Name) : string :=
  if Name_is_null a then "" else str a.

Definition Name_eqb (a b : Name) : bool := (ptr a =? ptr b)%N.

Definition Name_ltb (a b : Name) : bool :=
  String.ltb (Name_text a) (Name_text b).

(** [o << name.str], the insertion of a [const char*]: the characters of a
    name; for the null pointer no character, and the badbit of the stream is
    set (what the inserter of libstdc++ does; the language standard asks for
    a pointer that is not null). *)
Definition emit_cstr (a : Name) : outcome :=
  if Name_is_null a then Bad "" else emit (str a).

(** ** Var (lines 68-97) *)

Definition MAX_NUM : N := 1000000.

(** The union of [unsigned num] and [Name str]: the constructor records which
    member was stored. *)
Inductive Var : Type :=
| Var_num (num : N)
| Var_str (str : Name).

(** Reading member [num].  When the union holds a [Name], [num] overlays the
    low 32 bits of the pointer. *)
Definition Var_get_num (v : Var) : N :=
  match v with
  | Var_num n => n
  | Var_str s => u32 (ptr s)
  end.

(** [Var() : num(0) {}] *)
Definition Var_default : Var := Var_num 0.

(** [Var(unsigned num) : num(num) { assert(num > 0 && num < MAX_NUM); }]
    The parameter is an [unsigned]: [num] stands for the value received,
    which is below 2^32. *)
Definition Var_of_num (num : N) : res Var :=
  if (0 <? num)%N && (num <? MAX_NUM)%N then Ok (Var_num num)
  else Err AssertFailed.

(** [Var(Name str) : str(str) { assert(num > MAX_NUM); }] *)
Definition Var_of_name (s : Name) : res Var :=
  if (MAX_NUM <? Var_get_num (Var_str s))%N then Ok (Var_str s)
  else Err AssertFailed.

(** [bool is() { return num != 0; }] *)
Definition Var_is (v : Var) : bool := negb (Var_get_num v =? 0)%N.

(** [Var::print] *)
Definition Var_print (v : Var) : outcome :=
  if (Var_get_num v <? MAX_NUM)%N then emit (show_unsigned (Var_get_num v))
  else
    match v with
    | Var_str s => emit_cstr s
    | Var_num _ => Fault WildPointer ""
    end.


(** ** Basic types (lines 101-128) *)

Inductive BasicType : Type := none | i32 | i64 | f32 | f64.

Definition BasicType_eqb (a b : BasicType) : bool :=
  match a, b with
  | none, none | i32, i32 | i64, i64 | f32, f32 | f64, f64 => true
  | _, _ => false
  end.

Definition printBasicType (type : BasicType) : outcome :=
  match type with
  | none => emit "none"
  | i32 => emit "i32"
  | i64 => emit "i64"
  | f32 => emit "f32"
  | f64 => emit "f64"
  end.

Definition getBasicTypeSize (type : BasicType) : res N :=
  match type with
  | none => Err Aborted
  | i32 => Ok 4%N
  | i64 => Ok 8%N
  | f32 => Ok 4%N
  | f64 => Ok 8%N
  end.

(** ** Literals (lines 130-155) *)

(** The tag together with the member of the union the constructor stored.
    A [float] and a [double] are carried as their bit patterns. *)
Inductive Literal : Type :=
| Literal_none                 (* Literal() *)
| Literal_i32 (init : Z)       (* Literal(int32_t) *)
| Literal_i64 (init : Z)       (* Literal(int64_t) *)
| Literal_f32 (init : N)       (* Literal(float) *)
| Literal_f64 (init : N).      (* Literal(double) *)

Definition Literal_type (l : Literal) : BasicType :=
  match l with
  | Literal_none => none
  | Literal_i32 _ => i32
  | Literal_i64 _ => i64
  | Literal_f32 _ => f32
  | Literal_f64 _ => f64
  end.

(** [Literal()] *)
Definition Literal_default : Literal := Literal_none.

(** ** Operators (lines 159-183) *)

Inductive UnaryOp : Type :=
| Clz | Ctz | Popcnt
| Neg | Abs | Ceil | Floor | Trunc | Nearest | Sqrt.

Inductive BinaryOp : Type :=
| Add | Sub | Mul
| DivS | DivU | RemS | RemU | And | Or | Xor | Shl | ShrU | ShrS
| Div | CopySign | Min | Max.

Inductive RelationalOp : Type :=
| Eq | Ne
| LtS | LtU | LeS | LeU | GtS | GtU | GeS | GeU
| Lt | Le | Gt | Ge.

Inductive ConvertOp : Type :=
| ExtendSInt32 | ExtendUInt32 | WrapInt64 | TruncSFloat32 | TruncUFloat32
| TruncSFloat64 | TruncUFloat64 | ReinterpretFloat
| ConvertSInt32 | ConvertUInt32 | ConvertSInt64 | ConvertUInt64
| PromoteFloat32 | DemoteFloat64 | ReinterpretInt.

Inductive HostOp : Type :=
| PageSize | MemorySize | GrowMemory | HasFeature.

(** ** Expressions (lines 187-537) *)

(** An [Expression*] that the printer dereferences unconditionally is a
    subterm; one that it tests against null first, or does not read (the
    default of a switch), is an [option].  A [Switch::Case] is the triple of
    its literal, its body and its fall-through flag. *)
Inductive Expression : Type :=
| Nop
| Block (var : Var) (list : list Expression)
| If (condition ifTrue : Expression) (ifFalse : option Expression)
| Loop (out in_ : Var) (body : Expression)
| Label (var : Var)
| Break (var : Var) (condition value : option Expression)
| Switch (var : Var) (value : Expression)
         (cases : list (Literal * Expression * bool))
         (default_ : option Expression)
| Call (target : Var) (operands : list Expression)
| CallImport (target : Var) (operands : list Expression)
| CallIndirect (target : Expression) (operands : list Expression)
| GetLocal (id : Var)
| SetLocal (id : Var) (value : Expression)
| Load (bytes : N) (signed_ : bool) (offset : Z) (align : N)
       (ptr : Expression)
| Store (bytes : N) (offset : Z) (align : N) (ptr value : Expression)
| Const (value : Literal)
| Unary (op : UnaryOp) (value : Expression)
| Binary (op : BinaryOp) (left right : Expression)
| Compare (op : RelationalOp) (left right : Expression)
| Convert (op : ConvertOp) (value : Expression)
| Host (op : HostOp) (operands : list Expression).

(** [Const::set] *)
Definition Const_set (value_ : Literal) : Expression := Const value_.

Section Printer.

(** The text [operator<<] of the C++ library writes for a [float] and for a
    [double], given by bit pattern. *)
Variable show_float : N -> string.
Variable show_double : N -> string.

(** [Literal::print] *)
Definition Literal_print (l : Literal) : outcome :=
  match l with
  | Literal_none => Fault Aborted ""
  | Literal_i32 v => emit (show_int v)
  | Literal_i64 v => emit (show_int v)
  | Literal_f32 v => emit (show_float v)
  | Literal_f64 v => emit (show_double v)
  end.

(** [printFullLine], over the printer that [expression->print] dispatches
    to. *)
Definition printFullLine_with (print : Expression -> N -> outcome)
    (indent : N) (expression : Expression) : outcome :=
  doIndent indent ;; print expression indent ;; emit nl.

(** [if (p) printFullLine(o, indent, p);] *)
Definition printFullLine_if (print : Expression -> N -> outcome)
    (indent : N) (p : option Expression) : outcome :=
  match p with
  | Some expression => printFullLine_with print indent expression
  | None => Out ""
  end.

Definition print_UnaryOp (op : UnaryOp) : outcome :=
  match op with
  | Neg => emit "neg"
  | _ => Fault Aborted ""
  end.

Definition print_BinaryOp (op : BinaryOp) : outcome :=
  match op with
  | Add => emit "add"
  | Sub => emit "sub"
  | Mul => emit "mul"
  | DivS => emit "divs"
  | DivU => emit "divu"
  | RemS => emit "rems"
  | RemU => emit "remu"
  | And => emit "and"
  | Or => emit "or"
  | Xor => emit "xor"
  | Shl => emit "shl"
  | ShrU => emit "shru"
  | ShrS => emit "shrs"
  | Div => emit "div"
  | CopySign => emit "copysign"
  | Min => emit "min"
  | Max => emit "max"
  end.

Definition print_RelationalOp (op : RelationalOp) : outcome :=
  match op with
  | Eq => emit "eq"
  | Ne => emit "ne"
  | LtS => emit "lts"
  | LtU => emit "ltu"
  | LeS => emit "les"
  | LeU => emit "leu"
  | GtS => emit "gts"
  | GtU => emit "gtu"
  | GeS => emit "ges"
  | GeU => emit "geu"
  | Lt => emit "lt"
  | Le => emit "le"
  | Gt => emit "gt"
  | Ge => emit "ge"
  end.

Definition print_ConvertOp (op : ConvertOp) : outcome :=
  match op with
  | ConvertUInt32 => emit "uint32toDouble"
  | ConvertSInt32 => emit "sint32toDouble"
  | TruncSFloat64 => emit "float64tosint32"
  | _ => Fault Aborted ""
  end.

(** The virtual [Expression::print(o, indent)].  [Label] and [Host] declare
    no [print]. *)
Fixpoint print (e : Expression) (indent : N) {struct e} : outcome :=
  let '(inc, indent1) := incIndent indent in
  let '(dec, _) := decIndent indent1 in
  let printFullLine := printFullLine_with print indent1 in
  match e with
  | Nop => emit "nop"
  | Block var list =>
      emit "(block" ;;
      (if Var_is var then emit " " ;; Var_print var else Out "") ;;
      inc ;;
      for_each printFullLine list ;;
      dec
  | If condition ifTrue ifFalse =>
      emit "(if" ;;
      inc ;;
      printFullLine condition ;;
      printFullLine ifTrue ;;
      printFullLine_if print indent1 ifFalse ;;
      dec
  | Loop out in_ body =>
      emit "(loop" ;;
      (if Var_is out then
         emit " " ;; Var_print out ;;
         (if Var_is in_ then emit " " ;; Var_print in_ else Out "")
       else Out "") ;;
      inc ;;
      printFullLine body ;;
      dec
  | Label _ => Fault PureVirtual ""
  | Break var condition value =>
      emit "(break " ;;
      Var_print var ;;
      inc ;;
      printFullLine_if print indent1 condition ;;
      printFullLine_if print indent1 value ;;
      dec
  | Switch var value _ _ =>
      emit "(switch " ;;
      Var_print var ;;
      inc ;;
      printFullLine value ;;
      emit ("TODO: cases/default" ++ nl) ;;
      dec
  | Call target operands | CallImport target operands =>
      emit "(call " ;;
      Var_print target ;;
      inc ;;
      for_each printFullLine operands ;;
      dec
  | CallIndirect target operands =>
      emit "(callindirect " ;;
      inc ;;
      printFullLine target ;;
      for_each printFullLine operands ;;
      dec
  | GetLocal id =>
      emit "(setlocal " ;;
      Var_print id ;; emit ")"
  | SetLocal id value =>
      emit "(setlocal " ;;
      Var_print id ;;
      inc ;;
      printFullLine value ;;
      dec
  | Load bytes signed_ offset align ptr =>
      emit "(load " ;; emit (show_unsigned bytes) ;; emit " " ;;
      emit (show_bool signed_) ;; emit " " ;; emit (show_int offset) ;;
      emit " " ;; emit (show_unsigned align) ;;
      inc ;;
      printFullLine ptr ;;
      dec
  | Store bytes offset align ptr value =>
      emit "(load " ;; emit (show_unsigned bytes) ;; emit " " ;;
      emit " " ;; emit (show_int offset) ;;
      emit " " ;; emit (show_unsigned align) ;;
      inc ;;
      printFullLine ptr ;;
      printFullLine value ;;
      dec
  | Const value =>
      emit "(literal " ;;
      Literal_print value ;;
      emit ")"
  | Unary op value =>
      emit "(unary " ;;
      print_UnaryOp op ;;
      inc ;;
      printFullLine value ;;
      dec
  | Binary op lhs rhs =>
      emit "(binary " ;;
      print_BinaryOp op ;;
      inc ;;
      printFullLine lhs ;;
      printFullLine rhs ;;
      dec
  | Compare op lhs rhs =>
      emit "(compare " ;;
      print_RelationalOp op ;;
      inc ;;
      printFullLine lhs ;;
      printFullLine rhs ;;
      dec
  | Convert op value =>
      emit "(convert " ;;
      print_ConvertOp op ;;
      inc ;;
      printFullLine value ;;
      dec
  | Host _ _ => Fault PureVirtual ""
  end.

Definition printFullLine : N -> Expression -> outcome :=
  printFullLine_with print.

(** ** Module-level declarations (lines 541-652) *)

Definition dq : string := String "034"%char "".

Record NameType : Type := mkNameType {
  NameType_name : Name;
  NameType_type : BasicType
}.

Definition printParamsAndResult (indent : N) (result : BasicType)
    (params : list NameType) : outcome :=
  for_each (fun param =>
              emit "(param " ;; emit_cstr (NameType_name param) ;;
              emit " " ;;
              printBasicType (NameType_type param) ;; emit ") ") params ;;
  emit "(result " ;;
  printBasicType result ;; emit ")".

Record FunctionType : Type := mkFunctionType {
  FunctionType_name : Name;
  FunctionType_result : BasicType;
  FunctionType_params : list BasicType
}.

Definition FunctionType_print (t : FunctionType) (indent : N) : outcome :=
  let '(inc, indent1) := incIndent indent in
  let '(dec, _) := decIndent indent1 in
  emit "(type " ;; emit_cstr (FunctionType_name t) ;;
  inc ;;
  doIndent indent1 ;;
  for_each (fun param =>
              emit "(param " ;; printBasicType param ;; emit ") ")
           (FunctionType_params t) ;;
  emit "(result " ;;
  printBasicType (FunctionType_result t) ;; emit (")" ++ nl) ;;
  dec.

(** The loop of [operator==]: [steps] iterations starting at index [i]. *)
Fixpoint FunctionType_eq_loop (pa pb : list BasicType) (i steps : nat)
  : bool :=
  match steps with
  | O => true
  | S steps' =>
      if negb (BasicType_eqb (nth i pa none) (nth i pb none)) then false
      else FunctionType_eq_loop pa pb (S i) steps'
  end.

(** [FunctionType::operator==] *)
Definition FunctionType_eq (a b : FunctionType) : bool :=
  if negb (Name_eqb (FunctionType_name a) (FunctionType_name b)) then false
  else if negb (BasicType_eqb (FunctionType_result a) (FunctionType_result b))
  then false
  else if negb (List.length (FunctionType_params a)
                =? List.length (FunctionType_params b))%nat
  then false
  else FunctionType_eq_loop (FunctionType_params a) (FunctionType_params b)
                            0 (List.length (FunctionType_params a)).

(** [FunctionType::operator!=] *)
Definition FunctionType_neq (a b : FunctionType) : bool :=
  negb (FunctionType_eq a b).

Record Function : Type := mkFunction {
  Function_name : Name;
  Function_result : BasicType;
  Function_params : list NameType;
  Function_locals : list NameType;
  Function_body : Expression
}.

Definition Function_print (f : Function) (indent : N) : outcome :=
  let '(inc, indent1) := incIndent indent in
  let '(dec, _) := decIndent indent1 in
  emit "(func " ;; emit_cstr (Function_name f) ;; emit " " ;;
  printParamsAndResult indent (Function_result f) (Function_params f) ;;
  inc ;;
  for_each (fun local =>
              doIndent indent1 ;;
              emit "(local " ;; emit_cstr (NameType_name local) ;;
              emit " " ;;
              printBasicType (NameType_type local) ;; emit (")" ++ nl))
           (Function_locals f) ;;
  printFullLine indent1 (Function_body f) ;;
  dec.

Record Import : Type := mkImport {
  Import_name : Name;
  Import_module : Name;
  Import_base : Name;
  Import_type : FunctionType
}.

Definition Import_print (i : Import) (indent : N) : outcome :=
  emit "(import " ;; emit_cstr (Import_name i) ;;
  emit (" " ++ dq) ;; emit_cstr (Import_module i) ;;
  emit (dq ++ " " ++ dq) ;; emit_cstr (Import_base i) ;;
  emit (dq ++ " ") ;;
  FunctionType_print (Import_type i) indent ;;
  emit ")".

Record Export : Type := mkExport {
  Export_name : Name;
  Export_value : Var
}.

Definition Export_print (e : Export) (indent : N) : outcome :=
  emit ("(export " ++ dq) ;; emit_cstr (Export_name e) ;;
  emit (dq ++ " ") ;;
  Var_print (Export_value e) ;;
  emit ")".

Record Table : Type := mkTable { Table_vars : list Var }.

Definition Table_print (t : Table) (indent : N) : outcome :=
  emit "(table " ;;
  for_each (fun var => Var_print var ;; emit " ") (Table_vars t) ;;
  emit ")".

(** ** std::map keyed by Name *)

(** A [std::map<Name, V>] is carried as the sequence of entries its iterators
    visit.  [std_map_assign k v m] is [m[k] = v]: keys that are equivalent
    under the ordering (neither is less) denote the same entry. *)
Definition std_map (V : Type) : Type := list (Name * V).

Fixpoint std_map_assign {V : Type} (k : Name) (v : V) (m : std_map V)
  : std_map V :=
  match m with
  | [] => [(k, v)]
  | (k', v') :: rest =>
      if Name_ltb k k' then (k, v) :: m
      else if Name_ltb k' k then (k', v') :: std_map_assign k v rest
      else (k', v) :: rest
  end.

(** The map after the assignments [ins], made in order on an empty map. *)
Definition std_map_of {V : Type} (ins : list (Name * V)) : std_map V :=
  fold_left (fun m kv => std_map_assign (fst kv) (snd kv) m) ins [].

(** ** Module (lines 654-700) *)

(** The [map] from [Var] to [void*] is internal and not read by [print]; it
    is left out. *)
Record Module : Type := mkModule {
  functionTypes : list FunctionType;
  imports : std_map Import;
  exports : list Export;
  table : Table;
  functions : list Function;
  nextVar : N
}.

Definition Module_print (m : Module) : outcome :=
  let indent := 0%N in
  let '(inc, indent1) := incIndent indent in
  let '(dec, _) := decIndent indent1 in
  emit "(module" ;;
  inc ;;
  for_each (fun curr =>
              doIndent indent1 ;; FunctionType_print curr indent1 ;; emit nl)
           (functionTypes m) ;;
  for_each (fun curr =>
              doIndent indent1 ;; Import_print (snd curr) indent1 ;; emit nl)
           (imports m) ;;
  for_each (fun curr =>
              doIndent indent1 ;; Export_print curr indent1 ;; emit nl)
           (exports m) ;;
  doIndent indent1 ;;
  Table_print (table m) indent1 ;;
  emit nl ;;
  for_each (fun curr =>
              doIndent indent1 ;; Function_print curr indent1 ;; emit nl)
           (functions m) ;;
  dec ;;
  emit nl.

End Printer.

(** ** Freshly constructed instances of the expression classes *)

Inductive ExpressionKind : Type :=
| KNop | KBlock | KIf | KLoop | KLabel | KBreak | KSwitch | KCall
| KCallImport | KCallIndirect | KGetLocal | KSetLocal | KLoad | KStore
| KConst | KUnary | KBinary | KCompare | KConvert | KHost.

(** What [Arena::alloc<Const>()] constructs: [Const()], whose literal is
    [Literal()]. *)
Definition Const_default : Expression := Const Literal_default.

(** What [Arena::alloc<T>()] constructs for the class [T] of kind [k], by
    [new (ret) T()] (line 31): every member pointer is null, every number
    zero, every list empty, every identifier [Var()] and the literal
    [Literal()].  The object is in [Expression] for Nop, Block, Break, Call,
    CallImport, GetLocal and Const.  It is not for If, Loop, Switch,
    CallIndirect, SetLocal, Load, Store, Unary, Binary, Compare and Convert,
    whose object holds a null pointer in a position that [print]
    dereferences, and there is no such object for Label and Host, which are
    abstract: for these kinds the result is [None]. *)
Definition fresh (k : ExpressionKind) : option Expression :=
  match k with
  | KNop => Some Nop
  | KBlock => Some (Block Var_default [])
  | KBreak => Some (Break Var_default None None)
  | KCall => Some (Call Var_default [])
  | KCallImport => Some (CallImport Var_default [])
  | KGetLocal => Some (GetLocal Var_default)
  | KConst => Some Const_default
  | KIf | KLoop | KSwitch | KCallIndirect | KSetLocal | KLoad | KStore
  | KUnary | KBinary | KCompare | KConvert => None
  | KLabel | KHost => None
  end.

(** ** Delimiters and indentation of a printed text *)

(** The scanner reads a text left to right.  [open_at] holds, innermost
    first, the number of leading blanks of the line on which each delimiter
    that is still open was written; [line_blanks] is the number of leading
    blanks of the current line; [in_margin] tells that only blanks were read
    on the current line so far. *)
Record scan_state : Type := mkScan {
  open_at : list N;
  line_blanks : N;
  in_margin : bool
}.

Definition scan_start : scan_state := mkScan [] 0 true.

(** One character.  A closing delimiter must close the innermost open one
    and stand on a line with the same number of leading blanks. *)
Definition scan_char (c : ascii) (st : scan_state) : option scan_state :=
  if (c =? "010")%char then Some (mkScan (open_at st) 0 true)
  else if (c =? " ")%char then
    Some (mkScan (open_at st)
                 (if in_margin st then line_blanks st + 1 else line_blanks st)
                 (in_margin st))
  else if (c =? "(")%char then
    Some (mkScan (line_blanks st :: open_at st) (line_blanks st) false)
  else if (c =? ")")%char then
    match open_at st with
    | [] => None
    | b :: rest =>
        if (b =? line_blanks st)%N
        then Some (mkScan rest (line_blanks st) false)
        else None
    end
  else Some (mkScan (open_at st) (line_blanks st) false).

(** The nesting depth at the first character [c] of a line: the number of
    open delimiters, not counting the one that [c] closes. *)
Definition depth_at (c : ascii) (st : scan_state) : N :=
  (N.of_nat (List.length (open_at st))
   - if (c =? ")")%char then 1 else 0)%N.

(** A line whose first character other than a blank is [c] is indented by
    two blanks per level, [base] levels for the text as a whole. *)
Definition line_start_ok (base : N) (c : ascii) (st : scan_state) : bool :=
  if (c =? "010")%char || (c =? " ")%char || negb (in_margin st) then true
  else (line_blanks st =? 2 * (base + depth_at c st))%N.

Fixpoint scan (check : ascii -> scan_state -> bool) (s : string)
    (st : scan_state) : option scan_state :=
  match s with
  | EmptyString => Some st
  | String c rest =>
      if check c st then
        match scan_char c st with
        | Some st' => scan check rest st'
        | None => None
        end
      else None
  end.

Definition closed (r : option scan_state) : bool :=
  match r with
  | Some st => match open_at st with [] => true | _ => false end
  | None => false
  end.

(** Delimiters are balanced, each closed on a line indented like the line it
    was opened on. *)
Definition well_nested (s : string) : bool :=
  closed (scan (fun _ _ => true) s scan_start).

(** In addition every line is indented by its nesting depth. *)
Definition depth_indented (base : N) (s : string) : bool :=
  closed (scan (line_start_ok base) s scan_start).

(** ** Auxiliary notions used in the statements *)

(** Reading a decimal numeral. *)
Definition read_decimal (s : string) : option N :=
  option_map N.of_uint (NilEmpty.uint_of_string s).

(** The text a call appended, whether it returned or stopped. *)
Definition output_text (o : outcome) : string :=
  match o with
  | Out s => s
  | Bad s => s
  | Fault _ s => s
  end.

(** The call did not set the stream's badbit. *)
Definition stream_good (o : outcome) : bool :=
  match o with
  | Bad _ => false
  | Out _ | Fault _ _ => true
  end.

(** Nothing that is written to the stream after the call appears: the call
    stopped, or left the stream bad. *)
Definition halted (o : outcome) : bool :=
  match o with
  | Out _ => false
  | Bad _ | Fault _ _ => true
  end.

(** All that appears of the call and of what follows it is [s]. *)
Definition stops_after (o : outcome) (s : string) : Prop :=
  halted o = true /\ output_text o = s.

(** The [Var] values that one of the three constructors builds. *)
Inductive Var_constructed : Var -> Prop :=
| constructed_default : Var_constructed Var_default
| constructed_num (n : N) (v : Var) :
    Var_of_num n = Ok v -> Var_constructed v
| constructed_name (s : Name) (v : Var) :
    Var_of_name s = Ok v -> Var_constructed v.

(** The types of a 64-bit platform that pass the assertion of [alloc]:
    [sizeof(T) + 7] does not wrap, and the aligned size is below [CHUNK]. *)
Definition accepted (T : list byte) : Prop :=
  (sizeof T + 7 < 2 ^ 64)%Z /\ (aligned_size T < CHUNK)%Z.

(** The sum of the aligned sizes of a run of allocations. *)
Definition total_aligned (Ts : list (list byte)) : Z :=
  fold_right (fun T acc => aligned_size T + acc)%Z 0%Z Ts.

(** Every chunk has [CHUNK] bytes, and once a chunk exists the cursor lies
    inside the last one. *)
Definition Arena_wf (a : Arena) : Prop :=
  Forall (fun c : chunk => List.length c = Z.to_nat CHUNK) (chunks a) /\
  (chunks a <> [] -> (0 <= index a < CHUNK)%Z).

(** The [len] bytes at [p] were handed out: they lie in a chunk of the arena
    and, in the last chunk, below the cursor. *)
Definition live (a : Arena) (p : pointer) (len : nat) : Prop :=
  (pointer_chunk p < List.length (chunks a))%nat /\
  (0 <= pointer_offset p)%Z /\
  (pointer_offset p + Z.of_nat len <= CHUNK)%Z /\
  (S (pointer_chunk p) = List.length (chunks a) ->
   (pointer_offset p + Z.of_nat len <= index a)%Z).

(** The ordering of the keys of a [std::map<Name, V>]. *)
Definition Name_lt (a b : Name) : Prop := Name_ltb a b = true.

Definition concat_all (l : list string) : string :=
  fold_right String.append "" l.

(** A text on a line of its own, one level deep. *)
Definition line (s : string) : string := "  " ++ s ++ nl.

Definition lines (l : list string) : string := concat_all (map line l).

(** A module with one type, two imports assigned in decreasing order of
    their names, one export, a table of two entries and one function. *)
Definition example_imports : list (Name * Import) :=
  [ (mkName "print" 2000100,
     mkImport (mkName "print" 2000100) (mkName "env" 2000200)
              (mkName "print" 2000100)
              (mkFunctionType (mkName "v_i" 2000300) none [i32]));
    (mkName "abort" 2000400,
     mkImport (mkName "abort" 2000400) (mkName "env" 2000200)
              (mkName "abort" 2000400)
              (mkFunctionType (mkName "v" 2000500) none [])) ].

Definition example_module : Module :=
  mkModule
    [mkFunctionType (mkName "i_ii" 2000600) i32 [i32; i32]]
    (std_map_of example_imports)
    [mkExport (mkName "add" 2000700) (Var_num 1)]
    (mkTable [Var_num 1; Var_str (mkName "add" 2000700)])
    [mkFunction (mkName "add" 2000700) i32
                [mkNameType (mkName "x" 2000800) i32;
                 mkNameType (mkName "y" 2000900) i32]
                [mkNameType (mkName "t" 2001000) f64]
                (Binary Add (GetLocal (Var_num 1)) (GetLocal (Var_num 2)))]
    3.

(** ** Notions used for the delimiters of every printed expression *)

(** [scans chk o st st']: when the call returned and left the stream good,
    reading the text it wrote
    takes the scanner, run with the check [chk], from [st] to [st']. *)
Definition scans (chk : ascii -> scan_state -> bool) (o : outcome)
    (st st' : scan_state) : Prop :=
  forall s, o = Out s -> scan chk s st = Some st'.

(** Texts without line breaks and delimiters. *)
Definition plain_char (c : ascii) : bool :=
  negb ((c =? "010")%char || (c =? "(")%char || (c =? ")")%char).

Fixpoint plain (s : string) : bool :=
  match s with
  | EmptyString => true
  | String c rest => plain_char c && plain rest
  end.

Definition Var_plain (v : Var) : bool :=
  match v with
  | Var_num _ => true
  | Var_str s => plain (str s)
  end.

(** The identifiers that an expression prints are plain. *)
Fixpoint clean (e : Expression) : bool :=
  let clean_opt (p : option Expression) :=
    match p with
    | Some x => clean x
    | None => true
    end in
  match e with
  | Nop => true
  | Block var list => Var_plain var && forallb clean list
  | If condition ifTrue ifFalse =>
      clean condition && clean ifTrue && clean_opt ifFalse
  | Loop out in_ body => Var_plain out && Var_plain in_ && clean body
  | Label var => true
  | Break var condition value =>
      Var_plain var && clean_opt condition && clean_opt value
  | Switch var value _ _ => Var_plain var && clean value
  | Call target operands | CallImport target operands =>
      Var_plain target && forallb clean operands
  | CallIndirect target operands => clean target && forallb clean operands
  | GetLocal id => Var_plain id
  | SetLocal id value => Var_plain id && clean value
  | Load _ _ _ _ ptr => clean ptr
  | Store _ _ _ ptr value => clean ptr && clean value
  | Const _ => true
  | Unary _ value => clean value
  | Binary _ lhs rhs => clean lhs && clean rhs
  | Compare _ lhs rhs => clean lhs && clean rhs
  | Convert _ value => clean value
  | Host _ _ => true
  end.

(** [admits room switch_ok n e]: printed at indentation [n], [e] has room
    for one more level ([room]) wherever it opens a form with lines of its
    own, and holds a [Switch] among the nodes printed only if [switch_ok]. *)
Fixpoint admits (room : N -> bool) (switch_ok : bool) (n : N)
    (e : Expression) : bool :=
  let inner := u32 (n + 1) in
  let admits_opt (p : option Expression) :=
    match p with
    | Some x => admits room switch_ok inner x
    | None => true
    end in
  match e with
  | Nop | Label _ | GetLocal _ | Const _ | Host _ _ => true
  | Block _ list => room n && forallb (admits room switch_ok inner) list
  | If condition ifTrue ifFalse =>
      room n && admits room switch_ok inner condition
      && admits room switch_ok inner ifTrue && admits_opt ifFalse
  | Loop _ _ body => room n && admits room switch_ok inner body
  | Break _ condition value =>
      room n && admits_opt condition && admits_opt value
  | Switch _ value _ _ =>
      switch_ok && room n && admits room switch_ok inner value
  | Call _ operands | CallImport _ operands =>
      room n && forallb (admits room switch_ok inner) operands
  | CallIndirect target operands =>
      room n && admits room switch_ok inner target
      && forallb (admits room switch_ok inner) operands
  | SetLocal _ value | Unary _ value | Convert _ value
  | Load _ _ _ _ value =>
      room n && admits room switch_ok inner value
  | Store _ _ _ lhs rhs | Binary _ lhs rhs | Compare _ lhs rhs =>
      room n && admits room switch_ok inner lhs
      && admits room switch_ok inner rhs
  end.

(** [prints_in_place ... e]: printed on a line indented by [n], with
    [opened] and [n] related by [Inv], [e] leaves the scanner on that line,
    with the delimiters open before it and no others. *)
Definition prints_in_place (chk : ascii -> scan_state -> bool)
    (Inv : list N -> N -> Prop) (room : N -> bool) (switch_ok : bool)
    (show_float show_double : N -> string) (e : Expression) : Prop :=
  forall (n : N) (opened : list N) (margin : bool),
    (n < 2 ^ 32)%N ->
    clean e = true ->
    admits room switch_ok n e = true ->
    Inv opened n ->
    scans chk (print show_float show_double e n)
          (mkScan opened (2 * n) margin) (mkScan opened (2 * n) false).

(** Induction over the children that [print] visits. *)
Section Expression_printed_ind.

Variable P : Expression -> Prop.

Let P_opt (p : option Expression) : Prop :=
  match p with
  | Some x => P x
  | None => True
  end.

Hypothesis HNop : P Nop.
Hypothesis HBlock : forall var list, Forall P list -> P (Block var list).
Hypothesis HIf : forall c t f, P c -> P t -> P_opt f -> P (If c t f).
Hypothesis HLoop : forall out in_ body, P body -> P (Loop out in_ body).
Hypothesis HLabel : forall var, P (Label var).
Hypothesis HBreak :
  forall var c v, P_opt c -> P_opt v -> P (Break var c v).
Hypothesis HSwitch :
  forall var value cases default_, P value ->
                                   P (Switch var value cases default_).
Hypothesis HCall : forall target l, Forall P l -> P (Call target l).
Hypothesis HCallImport :
  forall target l, Forall P l -> P (CallImport target l).
Hypothesis HCallIndirect :
  forall target l, P target -> Forall P l -> P (CallIndirect target l).
Hypothesis HGetLocal : forall id, P (GetLocal id).
Hypothesis HSetLocal : forall id value, P value -> P (SetLocal id value).
Hypothesis HLoad :
  forall bytes signed_ offset align p,
    P p -> P (Load bytes signed_ offset align p).
Hypothesis HStore :
  forall bytes offset align p value,
    P p -> P value -> P (Store bytes offset align p value).
Hypothesis HConst : forall value, P (Const value).
Hypothesis HUnary : forall op value, P value -> P (Unary op value).
Hypothesis HBinary : forall op l r, P l -> P r -> P (Binary op l r).
Hypothesis HCompare : forall op l r, P l -> P r -> P (Compare op l r).
Hypothesis HConvert : forall op value, P value -> P (Convert op value).
Hypothesis HHost : forall op l, P (Host op l).

Fixpoint Expression_printed_ind (e : Expression) : P e :=
  let all :=
    fix all (l : list Expression) : Forall P l :=
      match l with
      | [] => Forall_nil P
      | x :: rest => Forall_cons x (Expression_printed_ind x) (all rest)
      end in
  let opt (p : option Expression) : P_opt p :=
    match p return P_opt p with
    | Some x => Expression_printed_ind x
    | None => I
    end in
  match e with
  | Nop => HNop
  | Block var list => HBlock var list (all list)
  | If c t f =>
      HIf c t f (Expression_printed_ind c) (Expression_printed_ind t) (opt f)
  | Loop out in_ body => HLoop out in_ body (Expression_printed_ind body)
  | Label var => HLabel var
  | Break var c v => HBreak var c v (opt c) (opt v)
  | Switch var value cases default_ =>
      HSwitch var value cases default_ (Expression_printed_ind value)
  | Call target l => HCall target l (all l)
  | CallImport target l => HCallImport target l (all l)
  | CallIndirect target l =>
      HCallIndirect target l (Expression_printed_ind target) (all l)
  | GetLocal id => HGetLocal id
  | SetLocal id value => HSetLocal id value (Expression_printed_ind value)
  | Load bytes signed_ offset align p =>
      HLoad bytes signed_ offset align p (Expression_printed_ind p)
  | Store bytes offset align p value =>
      HStore bytes offset align p value (Expression_printed_ind p)
             (Expression_printed_ind value)
  | Const value => HConst value
  | Unary op value => HUnary op value (Expression_printed_ind value)
  | Binary op l r =>
      HBinary op l r (Expression_printed_ind l) (Expression_printed_ind r)
  | Compare op l r =>
      HCompare op l r (Expression_printed_ind l) (Expression_printed_ind r)
  | Convert op value => HConvert op value (Expression_printed_ind value)
  | Host op l => HHost op l
  end.

End Expression_printed_ind.

(** ** Notions used for the faults of the printers *)

(** The fault a call stopped with, if it stopped. *)
Definition fault_of (o : outcome) : option fault :=
  match o with
  | Out _ => None
  | Bad _ => None
  | Fault f _ => Some f
  end.

(** The first of two faults in program order. *)
Definition or_else (a b : option fault) : option fault :=
  match a with
  | Some f => Some f
  | None => b
  end.

(** The first fault of a list of steps. *)
Definition first_of {A : Type} (f : A -> option fault) (l : list A)
  : option fault :=
  fold_right (fun x acc => or_else (f x) acc) None l.

(** [Var::print] reads the member [str] of a union holding a number when the
    number is not below MAX_NUM. *)
Definition Var_fault (v : Var) : option fault :=
  match v with
  | Var_num n => if (n <? MAX_NUM)%N then None else Some WildPointer
  | Var_str _ => None
  end.

Definition Literal_fault (l : Literal) : option fault :=
  match l with
  | Literal_none => Some Aborted
  | _ => None
  end.

Definition UnaryOp_fault (op : UnaryOp) : option fault :=
  match op with
  | Neg => None
  | _ => Some Aborted
  end.

Definition ConvertOp_fault (op : ConvertOp) : option fault :=
  match op with
  | ConvertUInt32 | ConvertSInt32 | TruncSFloat64 => None
  | _ => Some Aborted
  end.

(** The fault that printing an expression meets first, in the order in which
    [print] visits the fields. *)
Fixpoint first_fault (e : Expression) : option fault :=
  let opt (p : option Expression) :=
    match p with
    | Some x => first_fault x
    | None => None
    end in
  match e with
  | Nop => None
  | Block var list =>
      or_else (if Var_is var then Var_fault var else None)
              (first_of first_fault list)
  | If condition ifTrue ifFalse =>
      or_else (first_fault condition)
              (or_else (first_fault ifTrue) (opt ifFalse))
  | Loop out in_ body =>
      or_else (if Var_is out
               then or_else (Var_fault out)
                            (if Var_is in_ then Var_fault in_ else None)
               else None)
              (first_fault body)
  | Label _ => Some PureVirtual
  | Break var condition value =>
      or_else (Var_fault var) (or_else (opt condition) (opt value))
  | Switch var value _ _ => or_else (Var_fault var) (first_fault value)
  | Call target operands | CallImport target operands =>
      or_else (Var_fault target) (first_of first_fault operands)
  | CallIndirect target operands =>
      or_else (first_fault target) (first_of first_fault operands)
  | GetLocal id => Var_fault id
  | SetLocal id value => or_else (Var_fault id) (first_fault value)
  | Load _ _ _ _ ptr => first_fault ptr
  | Store _ _ _ ptr value => or_else (first_fault ptr) (first_fault value)
  | Const value => Literal_fault value
  | Unary op value => or_else (UnaryOp_fault op) (first_fault value)
  | Binary _ lhs rhs => or_else (first_fault lhs) (first_fault rhs)
  | Compare _ lhs rhs => or_else (first_fault lhs) (first_fault rhs)
  | Convert op value => or_else (ConvertOp_fault op) (first_fault value)
  | Host _ _ => Some PureVirtual
  end.

Definition no_fault (f : option fault) : bool :=
  match f with
  | None => true
  | Some _ => false
  end.

(** The call returned, whatever the state it left the stream in. *)
Definition returned (o : outcome) : bool := no_fault (fault_of o).

(** The call returned and left the stream good: all it wrote appears. *)
Definition wrote_all (o : outcome) : bool :=
  match o with
  | Out _ => true
  | Bad _ | Fault _ _ => false
  end.

(** The first fault of printing a module: its function types and imports
    have none. *)
Definition Module_fault (m : Module) : option fault :=
  or_else (first_of (fun e => Var_fault (Export_value e)) (exports m))
          (or_else (first_of Var_fault (Table_vars (table m)))
                   (first_of (fun f => first_fault (Function_body f))
                             (functions m))).

(** ** The names that the declarations stream *)

Definition named (a : Name) : bool := negb (Name_is_null a).

Definition NameType_named (p : NameType) : bool := named (NameType_name p).

Definition FunctionType_named (t : FunctionType) : bool :=
  named (FunctionType_name t).

Definition Import_named (i : Import) : bool :=
  named (Import_name i) && named (Import_module i) && named (Import_base i)
  && FunctionType_named (Import_type i).

Definition Export_named (e : Export) : bool := named (Export_name e).

Definition Function_named (f : Function) : bool :=
  named (Function_name f)
  && forallb NameType_named (Function_params f)
  && forallb NameType_named (Function_locals f).

Definition Module_named (m : Module) : bool :=
  forallb FunctionType_named (functionTypes m)
  && forallb (fun i => Import_named (snd i)) (imports m)
  && forallb Export_named (exports m)
  && forallb Function_named (functions m).

(** [FunctionType()], whose name is the null [Name()], and a module that
    holds this function type and nothing else. *)
Definition FunctionType_default : FunctionType :=
  mkFunctionType (mkName "" 0) none [].

Definition unnamed_type_module : Module :=
  mkModule [FunctionType_default] [] [] (mkTable []) [] 0.

(** ** Notions used for the layout of the arena *)

(** The cursor of an arena with a chunk is a multiple of 8. *)
Definition Arena_aligned (a : Arena) : Prop :=
  chunks a <> [] -> (index a mod 8 = 0)%Z.

(** [sz] bytes are reserved at [p]: [p] points into a chunk of the arena,
    and in the last chunk the bytes lie below the cursor. *)
Definition reserved (a : Arena) (p : pointer) (sz : Z) : Prop :=
  (pointer_chunk p < List.length (chunks a))%nat /\
  (0 <= pointer_offset p)%Z /\
  (S (pointer_chunk p) = List.length (chunks a) ->
   (pointer_offset p + sz <= index a)%Z).

(** The [sz] bytes at [p] end before [q] starts, or lie in another chunk. *)
Definition ends_before (p : pointer) (sz : Z) (q : pointer) : Prop :=
  pointer_chunk p <> pointer_chunk q \/
  (pointer_offset p + sz <= pointer_offset q)%Z.

(** Where [alloc] puts an object: at a multiple of 8, with its aligned size
    ending before the last byte of the chunk. *)
Definition well_placed (p : pointer) (T : list byte) : Prop :=
  (pointer_offset p mod 8 = 0)%Z /\
  (0 <= pointer_offset p)%Z /\
  (pointer_offset p + aligned_size T < CHUNK)%Z.

(** Only blanks. *)
Fixpoint all_blank (s : string) : bool :=
  match s with
  | EmptyString => true
  | String c rest => (c =? " ")%char && all_blank rest
  end.

(** ** Notions used for the delimiters of a printed module *)

Definition NameType_plain (p : NameType) : bool :=
  plain (str (NameType_name p)).

Definition FunctionType_plain (t : FunctionType) : bool :=
  plain (str (FunctionType_name t)).

Definition Import_plain (i : Import) : bool :=
  plain (str (Import_name i)) && plain (str (Import_module i))
  && plain (str (Import_base i)) && FunctionType_plain (Import_type i).

Definition Export_plain (e : Export) : bool :=
  plain (str (Export_name e)) && Var_plain (Export_value e).

Definition Function_plain (f : Function) : bool :=
  plain (str (Function_name f))
  && forallb NameType_plain (Function_params f)
  && forallb NameType_plain (Function_locals f)
  && clean (Function_body f).

(** The names and identifiers that a module prints hold no delimiter and no
    line break. *)
Definition Module_plain (m : Module) : bool :=
  forallb FunctionType_plain (functionTypes m)
  && forallb (fun kv => Import_plain (snd kv)) (imports m)
  && forallb Export_plain (exports m)
  && forallb Var_plain (Table_vars (table m))
  && forallb Function_plain (functions m).

(** The example module without its imports. *)
Definition example_module_without_imports : Module :=
  mkModule (functionTypes example_module) [] (exports example_module)
           (table example_module) (functions example_module)
           (nextVar example_module).

(** A small tree: a block of a conditional and a store. *)
Definition example_expression : Expression :=
  Block (Var_num 1)
        [ If (Compare LtS (GetLocal (Var_num 1)) (Const (Literal_i32 10)))
             (SetLocal (Var_num 1)
                       (Binary Add (GetLocal (Var_num 1))
                               (Const (Literal_i32 1))))
             (Some (Break (Var_num 1) None None));
          Store 4 0 4 (GetLocal (Var_num 2)) (Unary Neg (GetLocal (Var_num 1)))
        ].

(** * Properties *)

(** ** Streaming a name *)

Lemma emit_cstr_set (a : Name) : ptr a <> 0%N -> emit_cstr a = Out (str a).
Proof.
  intros H. unfold emit_cstr, Name_is_null.
  now apply N.eqb_neq in H as ->.
Qed.

Lemma emit_cstr_null (a : Name) : ptr a = 0%N -> emit_cstr a = Bad "".
Proof. intros H. unfold emit_cstr, Name_is_null. now rewrite H. Qed.

Lemma emit_cstr_Out_inv (a : Name) (s : string) :
  emit_cstr a = Out s -> ptr a <> 0%N /\ s = str a.
Proof.
  unfold emit_cstr, Name_is_null.
  destruct (ptr a =? 0)%N eqn:E; [discriminate|].
  apply N.eqb_neq in E. intros [= <-]. now split.
Qed.

Lemma u32_set (n : N) : (0 < u32 n)%N -> n <> 0%N.
Proof. intros H ->. vm_compute in H. discriminate. Qed.

(** ** Var *)

Example Var_print_7 : Var_print (Var_num 7) = Out "7".
Proof. reflexivity. Qed.
Example Var_print_0 : Var_print Var_default = Out "0".
Proof. reflexivity. Qed.

Lemma Var_of_num_ok (n : N) :
  (0 < n < MAX_NUM)%N -> Var_of_num n = Ok (Var_num n).
Proof.
  intros [Hpos Hlt]. unfold Var_of_num.
  apply N.ltb_lt in Hpos. apply N.ltb_lt in Hlt.
  now rewrite Hpos, Hlt.
Qed.

Lemma Var_of_name_ok (s : Name) :
  (MAX_NUM < u32 (ptr s))%N -> Var_of_name s = Ok (Var_str s).
Proof.
  intros H. unfold Var_of_name. cbn [Var_get_num].
  apply N.ltb_lt in H. now rewrite H.
Qed.

Lemma Var_of_name_inv (s : Name) (v : Var) :
  Var_of_name s = Ok v -> v = Var_str s /\ (MAX_NUM < u32 (ptr s))%N.
Proof.
  unfold Var_of_name. cbn [Var_get_num].
  destruct (MAX_NUM <? u32 (ptr s))%N eqn:E; [|discriminate].
  intros [= <-]. split; [reflexivity | now apply N.ltb_lt].
Qed.

Lemma Var_of_num_inv (n : N) (v : Var) :
  Var_of_num n = Ok v -> v = Var_num n /\ (0 < n < MAX_NUM)%N.
Proof.
  unfold Var_of_num.
  destruct (0 <? n)%N eqn:E1; destruct (n <? MAX_NUM)%N eqn:E2;
    cbn; try discriminate.
  intros [= <-]. apply N.ltb_lt in E1. apply N.ltb_lt in E2. auto.
Qed.

Lemma Var_print_str (s : Name) :
  (MAX_NUM < u32 (ptr s))%N -> Var_print (Var_str s) = Out (str s).
Proof.
  intros H. unfold Var_print. cbn [Var_get_num].
  destruct (u32 (ptr s) <? MAX_NUM)%N eqn:E.
  - apply N.ltb_lt in E. lia.
  - apply emit_cstr_set, u32_set. unfold MAX_NUM in H. lia.
Qed.

Lemma Var_print_num (n : N) :
  (n < MAX_NUM)%N -> Var_print (Var_num n) = Out (show_unsigned n).
Proof.
  intros H. unfold Var_print. cbn [Var_get_num].
  apply N.ltb_lt in H. now rewrite H.
Qed.

Lemma read_decimal_show_unsigned (n : N) :
  read_decimal (show_unsigned n) = Some n.
Proof.
  unfold read_decimal, show_unsigned.
  rewrite NilEmpty.usu. cbn. now rewrite DecimalN.Unsigned.of_to.
Qed.

(** C3. An identifier built from a number n with 0 < n < MAX_NUM prints the
    decimal numeral of n; an identifier built from a name prints the text of
    the name; and [is()] answers false on the default-constructed
    identifier. *)
Theorem Var_roundtrip :
  (forall n : N, (0 < n < MAX_NUM)%N ->
     exists v, Var_of_num n = Ok v /\
               Var_print v = Out (show_unsigned n) /\
               read_decimal (show_unsigned n) = Some n) /\
  (forall (s : Name) (v : Var), Var_of_name s = Ok v ->
     Var_print v = Out (str s)) /\
  (forall s : Name, (MAX_NUM < u32 (ptr s))%N ->
     exists v, Var_of_name s = Ok v) /\
  Var_is Var_default = false.
Proof.
  repeat split.
  - intros n Hn. exists (Var_num n). repeat split.
    + now apply Var_of_num_ok.
    + apply Var_print_num. lia.
    + apply read_decimal_show_unsigned.
  - intros s v Hv. apply Var_of_name_inv in Hv as [-> Hs].
    now apply Var_print_str.
  - intros s Hs. exists (Var_str s). now apply Var_of_name_ok.
Qed.

Lemma Var_roundtrip_witness :
  (exists v, Var_of_num 42 = Ok v /\ Var_print v = Out "42" /\
             read_decimal "42" = Some 42%N) /\
  Var_print (Var_str (mkName "main" 5000000)) = Out "main" /\
  (exists v, Var_of_name (mkName "main" 5000000) = Ok v).
Proof.
  destruct Var_roundtrip as (Hnum & Hname & Hmk & _).
  split; [| split].
  - apply (Hnum 42%N). unfold MAX_NUM. lia.
  - apply (Hname (mkName "main" 5000000)). reflexivity.
  - apply (Hmk (mkName "main" 5000000)). vm_compute. reflexivity.
Defined.

(** C8. [Var(unsigned)] fails its assertion on every number outside the open
    range (0, MAX_NUM); [Var(Name)] fails its assertion on every name whose
    value read through [num] is below MAX_NUM (and on MAX_NUM itself); so in
    every identifier that a constructor built, the magnitude test on [num]
    tells which member of the union was stored. *)
Theorem Var_construction_contract :
  (forall n : N, ~ (0 < n < MAX_NUM)%N -> Var_of_num n = Err AssertFailed) /\
  (forall s : Name, (u32 (ptr s) <= MAX_NUM)%N ->
     Var_of_name s = Err AssertFailed) /\
  (forall v : Var, Var_constructed v ->
     match v with
     | Var_num n => (Var_get_num v < MAX_NUM)%N
     | Var_str s => (MAX_NUM < Var_get_num v)%N
     end).
Proof.
  repeat split.
  - intros n Hn. unfold Var_of_num.
    destruct (0 <? n)%N eqn:E1; destruct (n <? MAX_NUM)%N eqn:E2;
      cbn; try reflexivity.
    apply N.ltb_lt in E1. apply N.ltb_lt in E2. exfalso. apply Hn. auto.
  - intros s Hs. unfold Var_of_name. cbn [Var_get_num].
    destruct (MAX_NUM <? u32 (ptr s))%N eqn:E; [|reflexivity].
    apply N.ltb_lt in E. lia.
  - intros v Hv. destruct Hv as [| n v Hn | s v Hs].
    + cbn. unfold MAX_NUM. lia.
    + apply Var_of_num_inv in Hn as [-> Hn]. cbn. lia.
    + apply Var_of_name_inv in Hs as [-> Hs]. cbn. exact Hs.
Qed.

Lemma Var_construction_contract_witness :
  Var_of_num 0 = Err AssertFailed /\
  Var_of_num 1000000 = Err AssertFailed /\
  Var_of_name (mkName "f" 4096) = Err AssertFailed /\
  (Var_get_num (Var_num 7) < MAX_NUM)%N.
Proof.
  destruct Var_construction_contract as (Hnum & Hname & Hall).
  split; [| split; [| split]].
  - apply (Hnum 0%N). lia.
  - apply (Hnum 1000000%N). unfold MAX_NUM. lia.
  - apply (Hname (mkName "f" 4096)). vm_compute. discriminate.
  - apply (Hall (Var_num 7)).
    apply (constructed_num 7). reflexivity.
Defined.

(** ** FunctionType equality *)

Lemma BasicType_eqb_eq (a b : BasicType) :
  BasicType_eqb a b = true <-> a = b.
Proof. destruct a, b; cbn; split; intros H; congruence. Qed.

Lemma Name_eqb_sym (a b : Name) : Name_eqb a b = Name_eqb b a.
Proof. unfold Name_eqb. apply N.eqb_sym. Qed.

(** The loop returns true exactly when the two vectors agree on the indices
    it visits. *)
Lemma FunctionType_eq_loop_spec (pa pb : list BasicType) (steps i : nat) :
  FunctionType_eq_loop pa pb i steps = true <->
  (forall j, (i <= j < i + steps)%nat -> nth j pa none = nth j pb none).
Proof.
  revert i. induction steps as [| k IH]; intros i; cbn.
  - split; [intros _ j Hj; lia | reflexivity].
  - destruct (BasicType_eqb (nth i pa none) (nth i pb none)) eqn:E; cbn.
    + apply BasicType_eqb_eq in E. rewrite IH. split.
      * intros H j Hj. destruct (Nat.eq_dec j i) as [-> | Hne];
          [exact E | apply H; lia].
      * intros H j Hj. apply H. lia.
    + split; [discriminate |].
      intros H. specialize (H i ltac:(lia)).
      apply BasicType_eqb_eq in H. congruence.
Qed.

Lemma FunctionType_eq_iff (a b : FunctionType) :
  FunctionType_eq a b = true <->
  Name_eqb (FunctionType_name a) (FunctionType_name b) = true /\
  FunctionType_result a = FunctionType_result b /\
  FunctionType_params a = FunctionType_params b.
Proof.
  unfold FunctionType_eq.
  destruct (Name_eqb (FunctionType_name a) (FunctionType_name b));
    cbn; [| split; [discriminate | intros (H & _); discriminate]].
  destruct (BasicType_eqb (FunctionType_result a) (FunctionType_result b))
    eqn:Er; cbn.
  2:{ split; [discriminate |]. intros (_ & H & _).
      apply BasicType_eqb_eq in H. congruence. }
  apply BasicType_eqb_eq in Er.
  destruct (List.length (FunctionType_params a)
            =? List.length (FunctionType_params b))%nat eqn:El; cbn.
  2:{ split; [discriminate |]. intros (_ & _ & H).
      apply Nat.eqb_neq in El. now rewrite H in El. }
  apply Nat.eqb_eq in El. rewrite FunctionType_eq_loop_spec. split.
  - intros H. repeat split; [exact Er |].
    apply (nth_ext _ _ none none El). intros j Hj. apply H. lia.
  - intros (_ & _ & H) j _. now rewrite H.
Qed.

(** C4. [operator==] on FunctionType is reflexive and symmetric, and holds
    exactly when the two signatures have the same name, the same result type
    and the same parameter vector; two signatures with different names, or
    with different parameter vectors (so also one a reordering of the other),
    are unequal.  Where the two names are interned (the same pointer only for
    the same name), [operator==] holds exactly for equal signatures. *)
Theorem FunctionType_eq_spec :
  (forall a, FunctionType_eq a a = true) /\
  (forall a b, FunctionType_eq a b = FunctionType_eq b a) /\
  (forall a b,
     FunctionType_eq a b = true <->
     Name_eqb (FunctionType_name a) (FunctionType_name b) = true /\
     FunctionType_result a = FunctionType_result b /\
     FunctionType_params a = FunctionType_params b) /\
  (forall a b,
     Name_eqb (FunctionType_name a) (FunctionType_name b) = false ->
     FunctionType_eq a b = false) /\
  (forall a b,
     FunctionType_params a <> FunctionType_params b ->
     FunctionType_eq a b = false) /\
  (forall a b,
     (ptr (FunctionType_name a) = ptr (FunctionType_name b) ->
      FunctionType_name a = FunctionType_name b) ->
     (FunctionType_eq a b = true <-> a = b)).
Proof.
  split; [| split; [| split; [| split; [| split]]]].
  - intros a. apply FunctionType_eq_iff. repeat split.
    unfold Name_eqb. apply N.eqb_refl.
  - intros a b.
    destruct (FunctionType_eq a b) eqn:Eab;
      destruct (FunctionType_eq b a) eqn:Eba; try reflexivity.
    + apply FunctionType_eq_iff in Eab as (Hn & Hr & Hp).
      rewrite <- Eba. symmetry. apply FunctionType_eq_iff.
      rewrite Name_eqb_sym. auto.
    + apply FunctionType_eq_iff in Eba as (Hn & Hr & Hp).
      rewrite <- Eab. apply FunctionType_eq_iff.
      rewrite Name_eqb_sym. auto.
  - exact FunctionType_eq_iff.
  - intros a b Hn. destruct (FunctionType_eq a b) eqn:E; [| reflexivity].
    apply FunctionType_eq_iff in E as (H & _). congruence.
  - intros a b Hp. destruct (FunctionType_eq a b) eqn:E; [| reflexivity].
    apply FunctionType_eq_iff in E as (_ & _ & H). contradiction.
  - intros a b Hintern. rewrite FunctionType_eq_iff. split.
    + intros (Hn & Hr & Hp). apply N.eqb_eq in Hn.
      destruct a, b; cbn in *. f_equal; auto.
    + intros ->. repeat split. unfold Name_eqb. apply N.eqb_refl.
Qed.

Lemma FunctionType_eq_spec_witness :
  FunctionType_eq (mkFunctionType (mkName "a" 2000000) i32 [i32; f64])
                  (mkFunctionType (mkName "b" 2000008) i32 [i32; f64])
  = false /\
  FunctionType_eq (mkFunctionType (mkName "a" 2000000) i32 [i32; f64])
                  (mkFunctionType (mkName "a" 2000000) i32 [f64; i32])
  = false /\
  (FunctionType_eq (mkFunctionType (mkName "a" 2000000) i32 [i32; f64])
                   (mkFunctionType (mkName "a" 2000000) i32 [i32; f64])
   = true <->
   mkFunctionType (mkName "a" 2000000) i32 [i32; f64]
   = mkFunctionType (mkName "a" 2000000) i32 [i32; f64]).
Proof.
  destruct FunctionType_eq_spec as (_ & _ & _ & Hname & Hparams & Hintern).
  split; [| split].
  - apply Hname. reflexivity.
  - apply Hparams. cbn. discriminate.
  - apply Hintern. intros _. reflexivity.
Defined.

(** ** Printing literals and operators *)

Section PrinterProperties.

Variable show_float : N -> string.
Variable show_double : N -> string.

(** C6. [Literal::print] aborts on a literal tagged none, and on a literal
    tagged i32, i64, f32 or f64 it returns after writing the member of the
    union that goes with the tag. *)
Theorem Literal_print_by_tag :
  (forall l, Literal_type l = none ->
     Literal_print show_float show_double l = Fault Aborted "") /\
  (forall l, Literal_type l <> none ->
     exists s, Literal_print show_float show_double l = Out s) /\
  (forall v, Literal_print show_float show_double (Literal_i32 v)
             = Out (show_int v)) /\
  (forall v, Literal_print show_float show_double (Literal_i64 v)
             = Out (show_int v)) /\
  (forall v, Literal_print show_float show_double (Literal_f32 v)
             = Out (show_float v)) /\
  (forall v, Literal_print show_float show_double (Literal_f64 v)
             = Out (show_double v)).
Proof.
  split; [| split; [| repeat split]].
  - intros [] H; cbn in H; try discriminate. reflexivity.
  - intros [] H; cbn in *; try contradiction; eexists; reflexivity.
Qed.

(** ** Sequencing *)

Lemma seq_Out_l (s : string) (b : outcome) :
  output_text (Out s ;; b) = s ++ output_text b.
Proof. destruct b; reflexivity. Qed.

(** C9. [Unary::print] aborts, after writing the tag, on every operator but
    Neg, and [Convert::print] on every operator but ConvertSInt32,
    ConvertUInt32 and TruncSFloat64; on the operators named, printing a node
    whose operand is a Nop returns. *)
Theorem Unary_Convert_print_partial :
  (forall (op : UnaryOp) (value : Expression) (indent : N),
     op <> Neg ->
     print show_float show_double (Unary op value) indent
     = Fault Aborted "(unary ") /\
  (forall (op : ConvertOp) (value : Expression) (indent : N),
     op <> ConvertSInt32 -> op <> ConvertUInt32 -> op <> TruncSFloat64 ->
     print show_float show_double (Convert op value) indent
     = Fault Aborted "(convert ") /\
  (forall indent : N,
     exists s, print show_float show_double (Unary Neg Nop) indent = Out s) /\
  (forall (op : ConvertOp) (indent : N),
     op = ConvertSInt32 \/ op = ConvertUInt32 \/ op = TruncSFloat64 ->
     exists s, print show_float show_double (Convert op Nop) indent = Out s).
Proof.
  split; [| split; [| split]].
  - intros op value indent Hop.
    destruct op; try contradiction; reflexivity.
  - intros op value indent H1 H2 H3.
    destruct op; try contradiction; reflexivity.
  - intros indent. eexists. cbn. reflexivity.
  - intros op indent [-> | [-> | ->]]; eexists; cbn; reflexivity.
Qed.

(** C10. [Literal()] is tagged none; the [Const] that the arena constructs
    holds that literal, and printing it aborts after the tag was written.
    After [Const::set] with a literal of any other tag printing returns, and
    printing a [Const] returns only if its literal is not tagged none. *)
Theorem Const_default_print_aborts :
  Literal_type Literal_default = none /\
  (forall indent : N,
     print show_float show_double Const_default indent
     = Fault Aborted "(literal ") /\
  (forall (l : Literal) (indent : N),
     Literal_type l <> none ->
     exists s, print show_float show_double (Const_set l) indent = Out s) /\
  (forall (l : Literal) (indent : N) (s : string),
     print show_float show_double (Const l) indent = Out s ->
     Literal_type l <> none).
Proof.
  split; [| split; [| split]].
  - reflexivity.
  - intros indent. reflexivity.
  - intros l indent Hl.
    destruct l; cbn in Hl; try contradiction; eexists; cbn; reflexivity.
  - intros l indent s H.
    destruct l; cbn in *; try discriminate.
Qed.

(** C5 (as the code has it). [Store::print] opens with the tag [load], the
    tag of [Load::print], never with [store]. *)
Theorem Store_print_tag (bytes : N) (offset : Z) (align : N)
    (ptr value : Expression) (indent : N) :
  exists rest,
    output_text
      (print show_float show_double (Store bytes offset align ptr value)
             indent)
    = "(load " ++ rest.
Proof.
  cbn [print incIndent decIndent]. unfold emit at 1.
  rewrite seq_Out_l. eexists. reflexivity.
Qed.

End PrinterProperties.

Example Store_print_example :
  print (fun _ => "") (fun _ => "") (Store 4 0 4 Nop Nop) 0
  = Out ("(load 4  0 4" ++ nl ++ "  nop" ++ nl ++ "  nop" ++ nl ++ ")").
Proof. vm_compute. reflexivity. Qed.

Example Load_print_example :
  print (fun _ => "") (fun _ => "") (Load 4 true 0 4 Nop) 0
  = Out ("(load 4 1 0 4" ++ nl ++ "  nop" ++ nl ++ ")").
Proof. vm_compute. reflexivity. Qed.

Lemma Literal_print_by_tag_witness :
  Literal_print (fun _ => "") (fun _ => "") Literal_default
  = Fault Aborted "" /\
  exists s, Literal_print (fun _ => "") (fun _ => "") (Literal_i64 (-3))
            = Out s.
Proof.
  destruct (Literal_print_by_tag (fun _ => "") (fun _ => ""))
    as (Hnone & Htyped & _).
  split.
  - apply Hnone. reflexivity.
  - apply Htyped. cbn. discriminate.
Defined.

Lemma Unary_Convert_print_partial_witness :
  print (fun _ => "") (fun _ => "") (Unary Sqrt Nop) 0
  = Fault Aborted "(unary " /\
  print (fun _ => "") (fun _ => "") (Convert WrapInt64 Nop) 0
  = Fault Aborted "(convert " /\
  exists s, print (fun _ => "") (fun _ => "") (Convert ConvertUInt32 Nop) 0
            = Out s.
Proof.
  destruct (Unary_Convert_print_partial (fun _ => "") (fun _ => ""))
    as (Hun & Hconv & _ & Hok).
  split; [| split].
  - apply Hun. discriminate.
  - apply Hconv; discriminate.
  - apply Hok. right. left. reflexivity.
Defined.

Lemma Const_default_print_aborts_witness :
  (exists s, print (fun _ => "") (fun _ => "") (Const_set (Literal_i32 5)) 0
             = Out s) /\
  Literal_type (Literal_i32 5) <> none.
Proof.
  destruct (Const_default_print_aborts (fun _ => "") (fun _ => ""))
    as (_ & _ & Hset & Honly).
  split.
  - apply Hset. cbn. discriminate.
  - apply (Honly (Literal_i32 5) 0%N ("(literal 5)")). reflexivity.
Defined.

(** ** Arena *)

Local Open Scope Z_scope.

Lemma land_minus_8 (x : Z) : Z.land x (-8) = 8 * (x / 8).
Proof.
  change (-8) with (Z.lnot (Z.ones 3)).
  rewrite <- Z.ldiff_land, Z.ldiff_ones_r by lia.
  rewrite Z.shiftl_mul_pow2, Z.shiftr_div_pow2 by lia.
  change (2 ^ 3) with 8. lia.
Qed.

Lemma sizeof_nonneg (T : list byte) : 0 <= sizeof T.
Proof. unfold sizeof. lia. Qed.

Lemma to_size_t_small (z : Z) : 0 <= z < 2 ^ 64 -> to_size_t z = z.
Proof. intros H. unfold to_size_t. now apply Z.mod_small. Qed.

Lemma to_int_small (z : Z) : 0 <= z < 2 ^ 31 -> to_int z = z.
Proof. intros H. unfold to_int. rewrite Z.mod_small; lia. Qed.

Lemma index_arith (i c : Z) :
  0 <= i < CHUNK -> 0 <= c < CHUNK ->
  to_size_t (to_size_t i + c) = i + c /\
  to_int (to_size_t (to_size_t i + c)) = i + c.
Proof.
  unfold CHUNK. intros Hi Hc.
  rewrite (to_size_t_small i) by lia.
  rewrite to_size_t_small by lia. split; [reflexivity |].
  apply to_int_small. lia.
Qed.

Lemma aligned_size_eq (T : list byte) :
  sizeof T + 7 < 2 ^ 64 -> aligned_size T = 8 * ((sizeof T + 7) / 8).
Proof.
  intros H. pose proof (sizeof_nonneg T) as Hs. unfold aligned_size.
  rewrite to_size_t_small by lia.
  change (to_size_t (-8)) with (Z.land (Z.ones 64) (-8)).
  rewrite Z.land_assoc, Z.land_ones, Z.mod_small by lia.
  apply land_minus_8.
Qed.

Lemma aligned_size_bounds (T : list byte) :
  sizeof T + 7 < 2 ^ 64 ->
  sizeof T <= aligned_size T <= sizeof T + 7 /\ aligned_size T mod 8 = 0.
Proof.
  intros H. rewrite aligned_size_eq by exact H.
  pose proof (Z.div_mod (sizeof T + 7) 8 ltac:(lia)) as Hdm.
  pose proof (Z.mod_pos_bound (sizeof T + 7) 8 ltac:(lia)) as Hb.
  split; [lia |].
  rewrite Z.mul_comm. apply Z.mod_mul. lia.
Qed.

Lemma update_nth_last {A : Type} (f : A -> A) (l : list A) (x : A) :
  update_nth (List.length l) f (l ++ [x])%list = (l ++ [f x])%list.
Proof. induction l as [| y l IH]; cbn; [reflexivity | now rewrite IH]. Qed.

Lemma read_write_same (off : nat) (data : list (option byte)) (c : chunk) :
  (off <= List.length c)%nat ->
  firstn (List.length data) (skipn off (write_chunk off data c)) = data.
Proof.
  intros Hoff. unfold write_chunk.
  rewrite skipn_app, length_firstn, Nat.min_l by exact Hoff.
  rewrite skipn_all2 by (rewrite length_firstn; lia).
  rewrite Nat.sub_diag, skipn_0. cbn [app].
  rewrite firstn_app, Nat.sub_diag, firstn_0, firstn_all.
  apply app_nil_r.
Qed.

Lemma read_write_below (o len off : nat) (data : list (option byte))
    (c : chunk) :
  (o + len <= off)%nat -> (off <= List.length c)%nat ->
  firstn len (skipn o (write_chunk off data c)) = firstn len (skipn o c).
Proof.
  intros Hlen Hoff. unfold write_chunk.
  rewrite skipn_app, length_firstn, Nat.min_l by exact Hoff.
  replace (o - off)%nat with 0%nat by lia. rewrite skipn_0.
  rewrite firstn_app.
  rewrite length_skipn, length_firstn, Nat.min_l by exact Hoff.
  replace (len - (off - o))%nat with 0%nat by lia.
  rewrite firstn_0, app_nil_r.
  rewrite skipn_firstn_comm, firstn_firstn.
  f_equal. lia.
Qed.

Lemma length_write_chunk (off : nat) (data : list (option byte)) (c : chunk) :
  (off + List.length data <= List.length c)%nat ->
  List.length (write_chunk off data c) = List.length c.
Proof.
  intros H. unfold write_chunk.
  rewrite !length_app, length_firstn, length_skipn. lia.
Qed.

Lemma length_fresh_chunk : List.length fresh_chunk = Z.to_nat CHUNK.
Proof. unfold fresh_chunk. apply repeat_length. Qed.

(** The two ways [alloc] proceeds, in one shape: the chunks after the call
    are [init] followed by the chunk written to. *)
Lemma alloc_shape (T : list byte) (a : Arena) :
  Arena_wf a -> accepted T ->
  exists (init : list chunk) (c : chunk) (off : Z),
    alloc T a
    = Ok (mkPointer (List.length init) off,
          mkArena (init ++ [write_chunk (Z.to_nat off) (map Some T) c])%list
                  (off + aligned_size T)) /\
    List.length c = Z.to_nat CHUNK /\
    0 <= off /\ off + aligned_size T < CHUNK /\
    ((chunks a = init /\ off = 0) \/
     (chunks a = (init ++ [c])%list /\ off = index a)).
Proof.
  intros [Hlen Hidx] [Hrep Hsize]. unfold alloc.
  pose proof (aligned_size_bounds T Hrep) as [Hb _].
  pose proof (sizeof_nonneg T) as Hs.
  apply Z.ltb_lt in Hsize as Hsize'. rewrite Hsize'. cbn [negb].
  destruct ((List.length (chunks a) =? 0)%nat
            || (to_size_t (to_size_t (index a) + aligned_size T) >=? CHUNK))
    eqn:E.
  - exists (chunks a), fresh_chunk, 0. cbn [chunks index].
    destruct (index_arith 0 (aligned_size T)) as [_ ->];
      [unfold CHUNK; lia | lia |].
    rewrite length_app. cbn [List.length].
    replace (List.length (chunks a) + 1 - 1)%nat
      with (List.length (chunks a)) by lia.
    unfold construct_at. cbn [pointer_chunk pointer_offset].
    rewrite update_nth_last.
    repeat split; try lia; auto using length_fresh_chunk.
  - apply orb_false_elim in E as [E1 E2].
    apply Nat.eqb_neq in E1. rewrite Z.geb_leb in E2.
    apply Z.leb_gt in E2.
    destruct (exists_last (l := chunks a)) as (init & c & Hc).
    { intros H. rewrite H in E1. now apply E1. }
    specialize (Hidx ltac:(rewrite Hc; now destruct init)).
    destruct (index_arith (index a) (aligned_size T)) as [Hadd Hadd'];
      [exact Hidx | lia |].
    rewrite Hadd in E2. rewrite Hadd'.
    exists init, c, (index a). rewrite Hc in *.
    rewrite length_app. cbn [List.length].
    replace (List.length init + 1 - 1)%nat with (List.length init) by lia.
    unfold construct_at. cbn [pointer_chunk pointer_offset chunks index].
    rewrite update_nth_last.
    apply Forall_app in Hlen as [_ Hlast].
    apply Forall_inv in Hlast.
    repeat split; try lia; auto.
Qed.

Lemma nth_app_last {A : Type} (l : list A) (x d : A) :
  nth (List.length l) (l ++ [x])%list d = x.
Proof. rewrite app_nth2, Nat.sub_diag by lia. reflexivity. Qed.

(** One allocation: the arena stays well formed, the bytes handed out hold
    the constructed object, and whatever was handed out before is still
    there, unchanged. *)
Lemma alloc_step (T : list byte) (a : Arena) :
  Arena_wf a -> accepted T ->
  exists p a',
    alloc T a = Ok (p, a') /\
    Arena_wf a' /\
    live a' p (List.length T) /\
    read a' p (List.length T) = map Some T /\
    (forall q len, live a q len ->
                   live a' q len /\ read a' q len = read a q len) /\
    (List.length (chunks a) <= List.length (chunks a'))%nat /\
    (chunks a <> [] -> List.length (chunks a') = List.length (chunks a) ->
     index a' = index a + aligned_size T) /\
    (chunks a = [] ->
     List.length (chunks a') = 1%nat /\ index a' = aligned_size T).
Proof.
  intros Hwf Hsize.
  destruct (alloc_shape T a Hwf Hsize)
    as (init & c & off & Halloc & Hc & Hoff0 & Hoff & Hcase).
  pose proof (aligned_size_bounds T (proj1 Hsize)) as [Hb _].
  pose proof (sizeof_nonneg T) as Hs. unfold sizeof in Hb, Hs.
  destruct Hwf as [Hlen Hidx].
  assert (Hinit : Forall (fun c : chunk => List.length c = Z.to_nat CHUNK)
                         init).
  { destruct Hcase as [[H _] | [H _]]; rewrite H in Hlen; auto.
    now apply Forall_app in Hlen. }
  assert (Hw : List.length (write_chunk (Z.to_nat off) (map Some T) c)
               = Z.to_nat CHUNK).
  { rewrite length_write_chunk; [exact Hc |]. rewrite length_map. lia. }
  eexists _, _. split; [exact Halloc |].
  split; [| split; [| split; [| split; [| split; [| split]]]]].
  - split; cbn [chunks index]; [| lia].
    apply Forall_app. split; [exact Hinit |]. constructor; auto.
  - unfold live. cbn [chunks index pointer_chunk pointer_offset].
    rewrite length_app. cbn [List.length]. repeat split; lia.
  - unfold read. cbn [chunks index pointer_chunk pointer_offset].
    rewrite nth_app_last.
    rewrite <- (length_map Some T) at 1.
    apply read_write_same. lia.
  - intros q len (Hq & Hq0 & Hqc & Hqi).
    unfold live, read. cbn [chunks index].
    rewrite length_app. cbn [List.length].
    destruct Hcase as [[Ha ->] | [Ha ->]]; rewrite Ha in *.
    + rewrite app_nth1 by exact Hq.
      repeat split; try lia.
    + rewrite length_app in Hq, Hqi. cbn [List.length] in Hq, Hqi.
      destruct (Nat.eq_dec (pointer_chunk q) (List.length init))
        as [Hlast | Hnot].
      * specialize (Hqi ltac:(lia)).
        rewrite Hlast, !nth_app_last.
        split; [repeat split; lia |].
        apply read_write_below; lia.
      * rewrite !app_nth1 by lia. repeat split; lia.
  - cbn [chunks]. rewrite length_app. cbn [List.length].
    destruct Hcase as [[Ha _] | [Ha _]]; rewrite Ha; [lia |].
    rewrite length_app. cbn [List.length]. lia.
  - cbn [chunks index]. rewrite length_app. cbn [List.length].
    intros Hne Heq.
    destruct Hcase as [[Ha _] | [Ha ->]]; [rewrite Ha in Heq; lia |].
    reflexivity.
  - cbn [chunks index]. intros Hnil.
    destruct Hcase as [[Ha ->] | [Ha _]].
    + rewrite <- Ha, Hnil. split; reflexivity.
    + rewrite Hnil in Ha. now destruct init.
Qed.

(** A run of allocations, by induction on the run. *)
Lemma alloc_all_spec (Ts : list (list byte)) :
  forall a : Arena,
  Arena_wf a ->
  Forall accepted Ts ->
  exists ps a',
    alloc_all Ts a = Ok (ps, a') /\
    Arena_wf a' /\
    Forall2 (fun p T => live a' p (List.length T) /\
                        read a' p (List.length T) = map Some T) ps Ts /\
    (forall q len, live a q len ->
                   live a' q len /\ read a' q len = read a q len) /\
    (List.length (chunks a) <= List.length (chunks a'))%nat /\
    (chunks a <> [] -> List.length (chunks a') = List.length (chunks a) ->
     index a' = index a + total_aligned Ts).
Proof.
  induction Ts as [| T rest IH]; intros a Hwf Hsizes.
  - exists [], a. cbn [alloc_all total_aligned fold_right].
    split; [reflexivity |]. split; [exact Hwf |].
    split; [constructor |]. split; [auto |]. split; [lia |].
    intros _ _. lia.
  - apply Forall_cons_iff in Hsizes as [HT Hrest].
    destruct (alloc_step T a Hwf HT)
      as (p & a1 & Halloc & Hwf1 & Hlive & Hread & Hkeep & Hmono & Hsame & _).
    destruct (IH a1 Hwf1 Hrest)
      as (ps & a2 & Hall & Hwf2 & Hps & Hkeep2 & Hmono2 & Hsame2).
    exists (p :: ps), a2. cbn [alloc_all]. rewrite Halloc, Hall.
    split; [reflexivity |]. split; [exact Hwf2 |].
    split; [| split; [| split]].
    + constructor; [| exact Hps].
      destruct (Hkeep2 p _ Hlive) as [Hl Hr]. split; [exact Hl |].
      now rewrite Hr.
    + intros q len Hq. destruct (Hkeep q len Hq) as [Hl1 Hr1].
      destruct (Hkeep2 q len Hl1) as [Hl2 Hr2].
      split; [exact Hl2 |]. now rewrite Hr2.
    + lia.
    + intros Hne Heq. cbn [total_aligned fold_right].
      fold (total_aligned rest).
      assert (Hne1 : chunks a1 <> []).
      { intros H. rewrite H in Hmono. destruct (chunks a); [auto |].
        cbn in Hmono. lia. }
      rewrite Hsame2, Hsame; auto; lia.
Qed.

Lemma live_valid (a : Arena) (p : pointer) (len : nat) :
  live a p len -> valid_pointer a p len.
Proof. intros (H1 & H2 & H3 & _). repeat split; assumption. Qed.

(** C7. [alloc] fails its assertion for a type whose aligned size is not
    smaller than CHUNK.  A run of allocations of types it accepts, on a new
    arena, returns a pointer for each; at the end of the run every pointer still
    points into a chunk of the arena and the bytes there are those of the
    object constructed at the time; and when the aligned sizes add up to more
    than CHUNK the arena holds at least two chunks. *)
Theorem Arena_alloc_safe :
  (forall (T : list byte) (a : Arena),
     CHUNK <= aligned_size T -> alloc T a = Err AssertFailed) /\
  (forall (Ts : list (list byte)) (index0 : Z),
     Forall accepted Ts ->
     exists ps a,
       alloc_all Ts (mkArena [] index0) = Ok (ps, a) /\
       Forall2 (fun p T => valid_pointer a p (List.length T) /\
                           read a p (List.length T) = map Some T) ps Ts /\
       (CHUNK < total_aligned Ts -> (2 <= List.length (chunks a))%nat)).
Proof.
  split.
  - intros T a H. unfold alloc.
    apply Z.ltb_ge in H. now rewrite H.
  - intros Ts index0 Hsizes.
    assert (Hwf0 : Arena_wf (mkArena [] index0)).
    { split; cbn; [constructor | congruence]. }
    destruct (alloc_all_spec Ts _ Hwf0 Hsizes)
      as (ps & a & Hall & Hwf & Hps & _ & _ & _).
    exists ps, a. split; [exact Hall |]. split.
    + eapply Forall2_impl; [| exact Hps].
      intros p T [Hl Hr]. split; [now apply live_valid | exact Hr].
    + intros Htotal.
      destruct Ts as [| T rest].
      { cbn in Htotal. unfold CHUNK in Htotal. lia. }
      apply Forall_cons_iff in Hsizes as [HT Hrest].
      cbn [alloc_all] in Hall.
      destruct (alloc_step T _ Hwf0 HT)
        as (p & a1 & Halloc & Hwf1 & _ & _ & _ & _ & _ & Hfirst).
      destruct (Hfirst eq_refl) as [Hone Hidx1].
      rewrite Halloc in Hall.
      destruct (alloc_all_spec rest a1 Hwf1 Hrest)
        as (ps' & a' & Hall' & Hwf' & _ & _ & Hmono & Hsame).
      rewrite Hall' in Hall. injection Hall as <- <-.
      destruct (Nat.eq_dec (List.length (chunks a')) 1) as [H1 | H1];
        [| lia].
      exfalso.
      assert (Hne1 : chunks a1 <> []).
      { intros H. rewrite H in Hone. discriminate. }
      assert (Hne' : chunks a' <> []).
      { intros H. rewrite H in H1. discriminate. }
      destruct Hwf' as [_ Hidx']. specialize (Hidx' Hne').
      rewrite Hsame, Hidx1 in Hidx' by (auto; lia).
      cbn [total_aligned fold_right] in Htotal.
      fold (total_aligned rest) in Htotal. lia.
Qed.

Lemma Arena_alloc_safe_witness :
  alloc (repeat x00 (Z.to_nat 9996)) (mkArena [] 0) = Err AssertFailed /\
  exists ps a,
    alloc_all [repeat x01 4000; repeat x02 4000; repeat x03 4000]
              (mkArena [] 0) = Ok (ps, a) /\
    Forall2 (fun p T => valid_pointer a p (List.length T) /\
                        read a p (List.length T) = map Some T)
            ps [repeat x01 4000; repeat x02 4000; repeat x03 4000] /\
    (2 <= List.length (chunks a))%nat.
Proof.
  destruct Arena_alloc_safe as [Hreject Hrun].
  split.
  - apply Hreject. vm_compute. discriminate.
  - destruct (Hrun [repeat x01 4000; repeat x02 4000; repeat x03 4000] 0)
      as (ps & a & Hall & Hkept & Hchunks).
    + repeat constructor.
    + exists ps, a. split; [exact Hall |]. split; [exact Hkept |].
      apply Hchunks. vm_compute. reflexivity.
Defined.

(** ** std::map iteration order *)

Local Close Scope Z_scope.

Lemma Name_lt_trans (a b c : Name) : Name_lt a b -> Name_lt b c -> Name_lt a c.
Proof.
  unfold Name_lt, Name_ltb, String.ltb. intros Hab Hbc.
  destruct (String.compare (Name_text a) (Name_text b)) eqn:Eab;
    try discriminate.
  destruct (String.compare (Name_text b) (Name_text c)) eqn:Ebc;
    try discriminate.
  apply String_as_OT.cmp_lt in Eab. apply String_as_OT.cmp_lt in Ebc.
  pose proof (String_as_OT.lt_trans _ _ _ Eab Ebc) as Hac.
  apply String_as_OT.cmp_lt in Hac. unfold String_as_OT.cmp in Hac.
  now rewrite Hac.
Qed.

Lemma std_map_assign_HdRel {V : Type} (k0 k : Name) (v : V) (m : std_map V) :
  Name_lt k0 k -> HdRel Name_lt k0 (map fst m) ->
  HdRel Name_lt k0 (map fst (std_map_assign k v m)).
Proof.
  intros Hk Hm. destruct m as [| [k' v'] rest]; cbn.
  - constructor. exact Hk.
  - destruct (Name_ltb k k'); [constructor; exact Hk |].
    apply HdRel_inv in Hm.
    destruct (Name_ltb k' k); constructor; exact Hm.
Qed.

Lemma std_map_assign_Sorted {V : Type} (k : Name) (v : V) (m : std_map V) :
  Sorted Name_lt (map fst m) -> Sorted Name_lt (map fst (std_map_assign k v m)).
Proof.
  induction m as [| [k' v'] rest IH]; intros Hs; cbn.
  - repeat constructor.
  - apply Sorted_inv in Hs as [Hrest Hhd].
    destruct (Name_ltb k k') eqn:E1.
    + constructor; [constructor; assumption |]. constructor. exact E1.
    + destruct (Name_ltb k' k) eqn:E2.
      * cbn. constructor; [apply IH; exact Hrest |].
        apply std_map_assign_HdRel; assumption.
      * cbn. constructor; assumption.
Qed.

Lemma std_map_of_Sorted {V : Type} (ins : list (Name * V)) :
  StronglySorted Name_lt (map fst (std_map_of ins)).
Proof.
  apply Sorted_StronglySorted.
  { intros a b c. apply Name_lt_trans. }
  unfold std_map_of.
  assert (H : forall m : std_map V,
             Sorted Name_lt (map fst m) ->
             Sorted Name_lt
               (map fst (fold_left
                           (fun m kv => std_map_assign (fst kv) (snd kv) m)
                           ins m))).
  { induction ins as [| [k v] rest IH]; intros m Hm; cbn; [exact Hm |].
    apply IH. now apply std_map_assign_Sorted. }
  apply H. constructor.
Qed.

(** ** Module printing *)

Lemma append_assoc (a b c : string) : (a ++ b) ++ c = a ++ b ++ c.
Proof. induction a as [| x a IH]; cbn; [reflexivity | now rewrite IH]. Qed.

Lemma for_each_lines {A : Type} (pr : A -> outcome) (l : list A)
    (ss : list string) :
  Forall2 (fun x s => pr x = Out s) l ss ->
  for_each (fun x => doIndent 1 ;; pr x ;; emit nl) l = Out (lines ss).
Proof.
  induction 1 as [| x s l ss Hx _ IH]; [reflexivity |].
  cbn [for_each]. fold (for_each (fun x => doIndent 1;; pr x;; emit nl) l).
  rewrite IH, Hx. cbn [lines map concat_all fold_right].
  reflexivity.
Qed.

Lemma stops_after_seq (a b : outcome) (s : string) :
  stops_after a s -> stops_after (a ;; b) s.
Proof.
  intros [Hhalted <-]. destruct a; [discriminate Hhalted | |];
    destruct b; split; reflexivity.
Qed.

Lemma stops_after_Out_seq (s u : string) (b : outcome) :
  stops_after b u -> stops_after (Out s ;; b) (s ++ u).
Proof.
  intros [Hhalted <-]. destruct b; [discriminate Hhalted | |];
    split; reflexivity.
Qed.

Lemma stops_after_Bad_seq (s : string) (b : outcome) :
  stops_after (Bad s ;; b) s.
Proof. destruct b; split; reflexivity. Qed.

Section ModuleProperties.

Variable show_float : N -> string.
Variable show_double : N -> string.

(** X18. When every declaration of a module prints and leaves the stream
    good, [Module::print] returns the text made of the opening of the module
    form, then one line per function type, one per import, one per export,
    the line of the table and one line per function, each at one level of
    indentation and each group in the order of its container, then the
    closing delimiter; and the imports of a map built by assignments are
    visited in increasing order of their names. *)
Theorem Module_print_order (m : Module) (ins : list (Name * Import))
    (tys ims exs : list string) (tbl : string) (fns : list string) :
  imports m = std_map_of ins ->
  Forall2 (fun t s => FunctionType_print t 1 = Out s) (functionTypes m) tys ->
  Forall2 (fun i s => Import_print (snd i) 1 = Out s) (imports m) ims ->
  Forall2 (fun e s => Export_print e 1 = Out s) (exports m) exs ->
  Table_print (table m) 1 = Out tbl ->
  Forall2 (fun f s => Function_print show_float show_double f 1 = Out s)
          (functions m) fns ->
  Module_print show_float show_double m
  = Out ("(module" ++ nl ++ lines tys ++ lines ims ++ lines exs ++ line tbl
         ++ lines fns ++ ")" ++ nl) /\
  StronglySorted Name_lt (map fst (imports m)).
Proof.
  intros Hins Htys Hims Hexs Htbl Hfns. split.
  - unfold Module_print.
    change (incIndent 0) with (emit nl, 1%N).
    change (decIndent 1) with (Out ")", 0%N). cbv iota beta zeta.
    rewrite (for_each_lines (fun t => FunctionType_print t 1) _ _ Htys).
    rewrite (for_each_lines (fun i => Import_print (snd i) 1) _ _ Hims).
    rewrite (for_each_lines (fun e => Export_print e 1) _ _ Hexs).
    rewrite (for_each_lines
               (fun f => Function_print show_float show_double f 1) _ _ Hfns).
    rewrite Htbl. unfold doIndent, emit, line. cbn [seq].
    change (indentation 1) with "  ".
    now rewrite !append_assoc.
  - rewrite Hins. apply std_map_of_Sorted.
Qed.

(** C2 (where the code departs from it). When the first function type of a
    module has a null name, [Module::print] writes the opening of the module
    form and of the type form and nothing else: streaming the null name sets
    the badbit of the stream, and the rest of the type, every later
    declaration, the table and the closing delimiter are lost. *)
Theorem Module_print_unnamed_type (m : Module) (t : FunctionType)
    (rest : list FunctionType) :
  functionTypes m = t :: rest ->
  FunctionType_named t = false ->
  output_text (Module_print show_float show_double m)
  = "(module" ++ nl ++ "  (type " /\
  forall s, Module_print show_float show_double m <> Out s.
Proof.
  intros Htypes Hnull.
  assert (Hname : emit_cstr (FunctionType_name t) = Bad "").
  { unfold FunctionType_named, named in Hnull. unfold emit_cstr.
    now destruct (Name_is_null (FunctionType_name t)). }
  assert (H : stops_after (Module_print show_float show_double m)
                          ("(module" ++ nl ++ "  " ++ "(type " ++ "")).
  { unfold Module_print.
    change (incIndent 0) with (emit nl, 1%N).
    change (decIndent 1) with (Out ")", 0%N). cbv iota beta zeta.
    rewrite Htypes. cbn [for_each].
    unfold emit at 1 2. do 2 apply stops_after_Out_seq.
    do 2 apply stops_after_seq.
    unfold doIndent, emit at 1. apply stops_after_Out_seq, stops_after_seq.
    unfold FunctionType_print. cbn [incIndent decIndent].
    unfold emit at 1. apply stops_after_Out_seq.
    rewrite Hname. apply stops_after_Bad_seq. }
  destruct H as [Hhalted Htext]. split; [exact Htext |].
  intros s Hs. rewrite Hs in Hhalted. discriminate Hhalted.
Qed.

End ModuleProperties.

Lemma Module_print_unnamed_type_witness :
  output_text (Module_print (fun _ => "") (fun _ => "") unnamed_type_module)
  = "(module" ++ nl ++ "  (type " /\
  forall s,
    Module_print (fun _ => "") (fun _ => "") unnamed_type_module <> Out s.
Proof.
  exact (Module_print_unnamed_type (fun _ => "") (fun _ => "")
           unnamed_type_module FunctionType_default [] eq_refl eq_refl).
Defined.

(** The call returns: the text is lost without any fault. *)
Example unnamed_type_module_text :
  Module_print (fun _ => "") (fun _ => "") unnamed_type_module
  = Bad ("(module" ++ nl ++ "  (type ").
Proof. reflexivity. Qed.

Lemma Module_print_order_witness :
  Module_print (fun _ => "") (fun _ => "") example_module
  = Out ("(module" ++ nl
         ++ lines (map (fun t => output_text (FunctionType_print t 1))
                       (functionTypes example_module))
         ++ lines (map (fun i => output_text (Import_print (snd i) 1))
                       (imports example_module))
         ++ lines (map (fun e => output_text (Export_print e 1))
                       (exports example_module))
         ++ line (output_text (Table_print (table example_module) 1))
         ++ lines (map (fun f => output_text
                                   (Function_print (fun _ => "") (fun _ => "")
                                                   f 1))
                       (functions example_module))
         ++ ")" ++ nl) /\
  StronglySorted Name_lt (map fst (imports example_module)).
Proof.
  apply (Module_print_order (fun _ => "") (fun _ => "") example_module
                            example_imports).
  - reflexivity.
  - repeat constructor.
  - repeat constructor.
  - repeat constructor.
  - reflexivity.
  - repeat constructor.
Defined.

Example example_module_text :
  Module_print (fun _ => "") (fun _ => "") example_module
  = Out ("(module" ++ nl
    ++ "  (type i_ii" ++ nl
    ++ "    (param i32) (param i32) (result i32)" ++ nl
    ++ "  )" ++ nl
    ++ "  (import abort " ++ dq ++ "env" ++ dq ++ " " ++ dq ++ "abort" ++ dq
    ++ " (type v" ++ nl
    ++ "    (result none)" ++ nl
    ++ "  ))" ++ nl
    ++ "  (import print " ++ dq ++ "env" ++ dq ++ " " ++ dq ++ "print" ++ dq
    ++ " (type v_i" ++ nl
    ++ "    (param i32) (result none)" ++ nl
    ++ "  ))" ++ nl
    ++ "  (export " ++ dq ++ "add" ++ dq ++ " 1)" ++ nl
    ++ "  (table 1 add )" ++ nl
    ++ "  (func add (param x i32) (param y i32) (result i32)" ++ nl
    ++ "    (local t f64)" ++ nl
    ++ "    (binary add" ++ nl
    ++ "      (setlocal 1)" ++ nl
    ++ "      (setlocal 2)" ++ nl
    ++ "    )" ++ nl
    ++ "  )" ++ nl
    ++ ")" ++ nl).
Proof. vm_compute. reflexivity. Qed.

(** ** Delimiters and indentation of freshly constructed instances *)

Local Open Scope N_scope.

Lemma u32_dec_inc (n : N) : n < 2 ^ 32 -> u32 (u32 (n + 1) + (2 ^ 32 - 1)) = n.
Proof.
  intros Hn. unfold u32.
  destruct (N.eq_dec (n + 1) (2 ^ 32)) as [E | E].
  - rewrite E, N.Div0.mod_same. cbn [N.add]. rewrite N.mod_small; lia.
  - rewrite (N.mod_small (n + 1)) by lia.
    replace (n + 1 + (2 ^ 32 - 1)) with (n + 1 * 2 ^ 32) by lia.
    rewrite N.Div0.mod_add. apply N.mod_small. exact Hn.
Qed.

Lemma u32_inc (n : N) : n + 1 < 2 ^ 32 -> u32 (n + 1) = n + 1.
Proof. intros Hn. unfold u32. now apply N.mod_small. Qed.

Lemma scan_app (chk : ascii -> scan_state -> bool) (a b : string)
    (st : scan_state) :
  scan chk (a ++ b) st
  = match scan chk a st with
    | Some st' => scan chk b st'
    | None => None
    end.
Proof.
  revert st. induction a as [| c a IH]; intros st; cbn; [reflexivity |].
  destruct (chk c st); [| reflexivity].
  destruct (scan_char c st); [apply IH | reflexivity].
Qed.

Lemma indentation_succ (n : N) :
  indentation (N.succ n) = "  " ++ indentation n.
Proof. unfold indentation. now rewrite N.iter_succ. Qed.

(** Reading the blanks of an indentation at the start of a line. *)
Lemma scan_indentation (chk : ascii -> scan_state -> bool) (n : N) :
  (forall st, chk " "%char st = true) ->
  forall (opened : list N) (blanks : N),
    scan chk (indentation n) (mkScan opened blanks true)
    = Some (mkScan opened (blanks + 2 * n) true).
Proof.
  intros Hchk. induction n as [| n IH] using N.peano_ind; intros opened blanks.
  - rewrite N.mul_0_r, N.add_0_r. reflexivity.
  - rewrite indentation_succ. cbn [String.append scan].
    rewrite !Hchk. cbn [scan_char Ascii.eqb Bool.eqb in_margin open_at
                        line_blanks].
    rewrite !Hchk. rewrite IH.
    replace (blanks + 1 + 1 + 2 * n) with (blanks + 2 * N.succ n) by lia.
    reflexivity.
Qed.

Ltac settle_eqb :=
  repeat match goal with
         | |- context [N.eqb ?a ?b] =>
             replace (N.eqb a b) with true by (symmetry; apply N.eqb_eq; lia)
         end.

Ltac scan_text :=
  unfold scan_start; rewrite ?append_assoc;
  repeat (rewrite ?scan_app, ?scan_indentation by reflexivity;
          cbn -[N.add N.mul N.sub N.eqb N.pow indentation u32 depth_at];
          unfold depth_at;
          cbn -[N.add N.mul N.sub N.eqb N.pow indentation u32];
          settle_eqb).

Section FreshInstances.

Variable show_float : N -> string.
Variable show_double : N -> string.

(** C1 (as the code has it). For every expression class whose freshly
    constructed instance holds no null pointer that [print] dereferences,
    printing that instance at any indentation does the following: for Nop,
    Block, Break, Call, CallImport and GetLocal it returns a text whose
    delimiters are balanced, each closed on a line indented like the line it
    was opened on, and every line of which is indented by its nesting depth;
    for Const it aborts after the opening of the form. *)
Theorem fresh_print_well_nested (k : ExpressionKind) (e : Expression)
    (n : N) :
  fresh k = Some e ->
  n < 2 ^ 32 ->
  match k with
  | KConst => print show_float show_double e n = Fault Aborted "(literal "
  | _ =>
      exists s,
        print show_float show_double e n = Out s /\
        well_nested (indentation n ++ s) = true /\
        depth_indented n (indentation n ++ s) = true
  end.
Proof.
  intros Hk Hn.
  destruct k; try discriminate Hk; injection Hk as <-;
    try reflexivity;
    (eexists; split;
     [ cbn -[N.add N.mul N.sub N.pow indentation u32];
       rewrite ?u32_dec_inc by exact Hn; reflexivity
     | split;
       [ unfold well_nested; scan_text; reflexivity
       | unfold depth_indented; scan_text; reflexivity ] ]).
Qed.

End FreshInstances.

(** C1 as stated fails on Const: the freshly constructed [Const] holds the
    literal [Literal()], tagged none, and printing it aborts. *)
Lemma fresh_Const_does_not_print :
  fresh KConst = Some Const_default /\
  ~ exists s,
      print (fun _ => "") (fun _ => "") Const_default 0 = Out s /\
      well_nested (indentation 0 ++ s) = true.
Proof.
  split; [reflexivity |]. intros (s & H & _). discriminate H.
Qed.

Lemma fresh_print_well_nested_witness :
  exists s,
    print (fun _ => "") (fun _ => "") (Block Var_default []) 2 = Out s /\
    well_nested (indentation 2 ++ s) = true /\
    depth_indented 2 (indentation 2 ++ s) = true.
Proof.
  exact (fresh_print_well_nested (fun _ => "") (fun _ => "") KBlock
           (Block Var_default []) 2 eq_refl eq_refl).
Defined.

(** The placeholder line of [Switch::print] starts in the first column. *)
Example Switch_placeholder_line :
  print (fun _ => "") (fun _ => "") (Switch Var_default Nop [] None) 1
  = Out ("(switch 0" ++ nl ++ "    nop" ++ nl ++ "TODO: cases/default" ++ nl
         ++ "  )") /\
  depth_indented 1 ("  (switch 0" ++ nl ++ "    nop" ++ nl
                    ++ "TODO: cases/default" ++ nl ++ "  )") = false.
Proof. split; vm_compute; reflexivity. Qed.

(** ** Delimiters and indentation of every printed expression *)

Lemma seq_Out_inv (a b : outcome) (s : string) :
  a ;; b = Out s -> exists sa sb, a = Out sa /\ b = Out sb /\ s = sa ++ sb.
Proof.
  destruct a as [sa | sa | f sa]; destruct b as [sb | sb | g sb]; cbn;
    try discriminate.
  intros [= <-]. now exists sa, sb.
Qed.

Lemma u32_lt (n : N) : u32 n < 2 ^ 32.
Proof. unfold u32. apply N.mod_lt. discriminate. Qed.

Lemma plain_string_of_uint (d : Decimal.uint) :
  plain (NilEmpty.string_of_uint d) = true.
Proof. induction d; cbn; auto. Qed.

Lemma plain_show_unsigned (n : N) : plain (show_unsigned n) = true.
Proof. apply plain_string_of_uint. Qed.

Lemma plain_show_int (z : Z) : plain (show_int z) = true.
Proof.
  unfold show_int. destruct (Z.to_int z); cbn; apply plain_string_of_uint.
Qed.

Lemma plain_show_bool (b : bool) : plain (show_bool b) = true.
Proof. now destruct b. Qed.

Section Scanning.

(** The check made at each character: it passes inside a line, on a blank
    and on a line break. *)
Variable chk : ascii -> scan_state -> bool.

Hypothesis chk_mid : forall c st, in_margin st = false -> chk c st = true.
Hypothesis chk_blank : forall st, chk " "%char st = true.
Hypothesis chk_nl : forall st, chk "010"%char st = true.

Lemma scans_seq (a b : outcome) (st st1 st2 : scan_state) :
  scans chk a st st1 -> scans chk b st1 st2 -> scans chk (a ;; b) st st2.
Proof.
  intros Ha Hb s Hs.
  apply seq_Out_inv in Hs as (sa & sb & -> & -> & ->).
  rewrite scan_app, (Ha sa eq_refl). now apply Hb.
Qed.

Lemma scans_emit (s : string) (st st' : scan_state) :
  scan chk s st = Some st' -> scans chk (emit s) st st'.
Proof. intros H t [= <-]. exact H. Qed.

Lemma scans_Out_nil (st : scan_state) : scans chk (Out "") st st.
Proof. intros s [= <-]. reflexivity. Qed.

Lemma scans_Fault (f : fault) (s : string) (st st' : scan_state) :
  scans chk (Fault f s) st st'.
Proof. intros t H. discriminate H. Qed.

Lemma scans_Bad (s : string) (st st' : scan_state) :
  scans chk (Bad s) st st'.
Proof. intros t H. discriminate H. Qed.

Lemma scans_for_each {A : Type} (body : A -> outcome) (l : list A)
    (st : scan_state) :
  Forall (fun x => scans chk (body x) st st) l ->
  scans chk (for_each body l) st st.
Proof.
  induction 1 as [| x l Hx _ IH]; cbn [for_each].
  - apply scans_Out_nil.
  - eapply scans_seq; [exact Hx | exact IH].
Qed.

Lemma scan_plain (s : string) (opened : list N) (blanks : N) :
  plain s = true ->
  scan chk s (mkScan opened blanks false) = Some (mkScan opened blanks false).
Proof.
  induction s as [| c s IH]; cbn [plain scan]; [reflexivity |].
  intros H. apply andb_true_iff in H as [Hc Hs].
  rewrite chk_mid by reflexivity.
  unfold plain_char in Hc. apply negb_true_iff in Hc.
  apply orb_false_iff in Hc as [Hc H3]. apply orb_false_iff in Hc as [H1 H2].
  unfold scan_char. rewrite H1, H2, H3. cbn [in_margin open_at line_blanks].
  destruct (c =? " ")%char; now apply IH.
Qed.

Lemma scans_plain (s : string) (opened : list N) (blanks : N) :
  plain s = true ->
  scans chk (emit s) (mkScan opened blanks false)
        (mkScan opened blanks false).
Proof. intros H. apply scans_emit. now apply scan_plain. Qed.

Lemma scans_emit_cstr (a : Name) (opened : list N) (blanks : N) :
  plain (str a) = true ->
  scans chk (emit_cstr a) (mkScan opened blanks false)
        (mkScan opened blanks false).
Proof.
  intros H. unfold emit_cstr.
  destruct (Name_is_null a); [apply scans_Bad | now apply scans_plain].
Qed.

Lemma scans_Var_print (v : Var) (opened : list N) (blanks : N) :
  Var_plain v = true ->
  scans chk (Var_print v) (mkScan opened blanks false)
        (mkScan opened blanks false).
Proof.
  intros Hv. unfold Var_print.
  destruct (Var_get_num v <? MAX_NUM)%N.
  - apply scans_plain, plain_show_unsigned.
  - destruct v; [apply scans_Fault | now apply scans_emit_cstr].
Qed.

Lemma scans_nl (opened : list N) (blanks : N) (margin : bool) :
  scans chk (emit nl) (mkScan opened blanks margin) (mkScan opened 0 true).
Proof. apply scans_emit. cbn [nl scan]. now rewrite chk_nl. Qed.

Lemma scans_doIndent (n : N) (opened : list N) :
  scans chk (doIndent n) (mkScan opened 0 true) (mkScan opened (2 * n) true).
Proof.
  apply scans_emit. rewrite scan_indentation by exact chk_blank.
  now rewrite N.add_0_l.
Qed.

(** A closing delimiter on the line of its opening one. *)
Lemma scans_close_inline (opened : list N) (blanks : N) :
  scans chk (emit ")") (mkScan (blanks :: opened) blanks false)
        (mkScan opened blanks false).
Proof.
  apply scans_emit. cbn [scan]. rewrite chk_mid by reflexivity.
  cbn. now rewrite N.eqb_refl.
Qed.

Lemma scans_printFullLine_with (pr : Expression -> N -> outcome)
    (n : N) (e : Expression) (opened : list N) :
  scans chk (pr e n) (mkScan opened (2 * n) true)
        (mkScan opened (2 * n) false) ->
  scans chk (printFullLine_with pr n e) (mkScan opened 0 true)
        (mkScan opened 0 true).
Proof.
  intros H. unfold printFullLine_with.
  eapply scans_seq; [apply scans_doIndent |].
  eapply scans_seq; [exact H | apply scans_nl].
Qed.

Lemma scans_printFullLine_if (pr : Expression -> N -> outcome)
    (n : N) (p : option Expression) (opened : list N) :
  match p with
  | Some e => scans chk (pr e n) (mkScan opened (2 * n) true)
                    (mkScan opened (2 * n) false)
  | None => True
  end ->
  scans chk (printFullLine_if pr n p) (mkScan opened 0 true)
        (mkScan opened 0 true).
Proof.
  destruct p as [e |]; cbn [printFullLine_if].
  - apply scans_printFullLine_with.
  - intros _. apply scans_Out_nil.
Qed.

Lemma scans_print_UnaryOp (op : UnaryOp) (opened : list N) (blanks : N) :
  scans chk (print_UnaryOp op) (mkScan opened blanks false)
        (mkScan opened blanks false).
Proof.
  destruct op; first [apply scans_Fault | now apply scans_plain].
Qed.

Lemma scans_print_BinaryOp (op : BinaryOp) (opened : list N) (blanks : N) :
  scans chk (print_BinaryOp op) (mkScan opened blanks false)
        (mkScan opened blanks false).
Proof. destruct op; now apply scans_plain. Qed.

Lemma scans_print_RelationalOp (op : RelationalOp) (opened : list N)
    (blanks : N) :
  scans chk (print_RelationalOp op) (mkScan opened blanks false)
        (mkScan opened blanks false).
Proof. destruct op; now apply scans_plain. Qed.

Lemma scans_print_ConvertOp (op : ConvertOp) (opened : list N) (blanks : N) :
  scans chk (print_ConvertOp op) (mkScan opened blanks false)
        (mkScan opened blanks false).
Proof.
  destruct op; first [apply scans_Fault | now apply scans_plain].
Qed.

(** What the check asks at the first character of a line: [Inv opened n]
    relates the delimiters open there to the indentation [n] of the line. *)
Variable Inv : list N -> N -> Prop.
Variable room : N -> bool.
Variable switch_ok : bool.

Hypothesis chk_first :
  forall c opened n,
    Inv opened n -> c <> ")"%char -> chk c (mkScan opened (2 * n) true) = true.
Hypothesis chk_closing :
  forall opened n,
    Inv opened n -> chk ")"%char (mkScan (2 * n :: opened) (2 * n) true) = true.
Hypothesis Inv_child :
  forall opened n,
    Inv opened n -> room n = true -> Inv (2 * n :: opened) (u32 (n + 1)).
Hypothesis chk_placeholder :
  switch_ok = true ->
  forall opened, chk "T"%char (mkScan opened 0 true) = true.

Lemma chk_start (c : ascii) (opened : list N) (n : N) (margin : bool) :
  Inv opened n -> c <> ")"%char ->
  chk c (mkScan opened (2 * n) margin) = true.
Proof.
  intros Hinv Hc. destruct margin; [now apply chk_first |].
  now apply chk_mid.
Qed.

(** The opening delimiter and the tag of a form. *)
Lemma scans_open (tag : string) (opened : list N) (n : N) (margin : bool) :
  Inv opened n -> plain tag = true ->
  scans chk (emit (String "(" tag)) (mkScan opened (2 * n) margin)
        (mkScan (2 * n :: opened) (2 * n) false).
Proof.
  intros Hinv Htag. apply scans_emit. cbn [scan].
  rewrite chk_start by (auto; discriminate).
  cbn. now apply scan_plain.
Qed.

Lemma scans_nop (opened : list N) (n : N) (margin : bool) :
  Inv opened n ->
  scans chk (emit "nop") (mkScan opened (2 * n) margin)
        (mkScan opened (2 * n) false).
Proof.
  intros Hinv. apply scans_emit. cbn [scan].
  rewrite chk_start by (auto; discriminate).
  cbn. now rewrite !chk_mid.
Qed.

(** The closing line of a form opened on a line indented by [n]. *)
Lemma scans_close (n : N) (opened : list N) :
  Inv opened n ->
  scans chk (doIndent n ;; emit ")") (mkScan (2 * n :: opened) 0 true)
        (mkScan opened (2 * n) false).
Proof.
  intros Hinv. eapply scans_seq; [apply scans_doIndent |].
  apply scans_emit. cbn [scan]. rewrite chk_closing by exact Hinv.
  cbn. now rewrite N.eqb_refl.
Qed.

(** The placeholder line of [Switch::print]. *)
Lemma scans_placeholder (opened : list N) :
  switch_ok = true ->
  scans chk (emit ("TODO: cases/default" ++ nl)) (mkScan opened 0 true)
        (mkScan opened 0 true).
Proof.
  intros Hok. apply scans_emit.
  change ("TODO: cases/default" ++ nl)
    with (String "T" ("ODO: cases/default" ++ nl)).
  cbn [scan]. rewrite chk_placeholder by exact Hok.
  cbn [scan_char Ascii.eqb Bool.eqb open_at line_blanks in_margin].
  rewrite scan_app, scan_plain by reflexivity.
  cbn [nl scan]. now rewrite chk_nl.
Qed.

Variable show_float : N -> string.
Variable show_double : N -> string.

Hypothesis show_float_plain : forall v, plain (show_float v) = true.
Hypothesis show_double_plain : forall v, plain (show_double v) = true.

Lemma scans_Literal_print (l : Literal) (opened : list N) (blanks : N) :
  scans chk (Literal_print show_float show_double l)
        (mkScan opened blanks false) (mkScan opened blanks false).
Proof.
  destruct l; cbn [Literal_print];
    first [apply scans_Fault | apply scans_plain];
    auto using plain_show_int.
Qed.

Lemma scans_lines (n : N) (l : list Expression) (opened : list N) :
  n < 2 ^ 32 ->
  Forall (prints_in_place chk Inv room switch_ok show_float show_double) l ->
  forallb clean l = true ->
  forallb (admits room switch_ok n) l = true ->
  Inv opened n ->
  scans chk
        (for_each (printFullLine_with (print show_float show_double) n) l)
        (mkScan opened 0 true) (mkScan opened 0 true).
Proof.
  intros Hn IH Hclean Hadmits Hinv. apply scans_for_each.
  rewrite forallb_forall in Hclean, Hadmits.
  rewrite Forall_forall in IH |- *.
  intros e He. apply scans_printFullLine_with.
  now apply (IH e He); auto.
Qed.

Ltac split_andb H :=
  repeat match type of H with
         | (_ && _)%bool = true =>
             let H' := fresh "Hand" in
             apply andb_true_iff in H as [H H']
         end.

Ltac by_hypothesis :=
  match goal with
  | IH : prints_in_place _ _ _ _ _ _ ?e |- scans _ (print _ _ ?e _) _ _ =>
      apply IH;
      [apply u32_lt | assumption | assumption | apply Inv_child; assumption]
  end.

Ltac chain :=
  lazymatch goal with
  | |- scans _ (doIndent _ ;; emit ")") _ _ => apply scans_close; assumption
  | |- scans _ (_ ;; _) _ _ => eapply scans_seq; [chain | chain]
  | |- scans _ (if ?b then _ else _) _ _ => destruct b; chain
  | |- scans _ (Out "") _ _ => apply scans_Out_nil
  | |- scans _ (Fault _ _) _ _ => apply scans_Fault
  | |- scans _ (printFullLine_with _ _ _) _ _ =>
      apply scans_printFullLine_with; by_hypothesis
  | |- scans _ (printFullLine_if _ _ ?p) _ _ =>
      apply scans_printFullLine_if; destruct p; [by_hypothesis | exact I]
  | |- scans _ (for_each _ _) _ _ =>
      apply scans_lines;
      [apply u32_lt | assumption | assumption | assumption
      | apply Inv_child; assumption]
  | |- scans _ (Var_print _) _ _ => apply scans_Var_print; assumption
  | |- scans _ (Literal_print _ _ _) _ _ => apply scans_Literal_print
  | |- scans _ (print_UnaryOp _) _ _ => apply scans_print_UnaryOp
  | |- scans _ (print_BinaryOp _) _ _ => apply scans_print_BinaryOp
  | |- scans _ (print_RelationalOp _) _ _ => apply scans_print_RelationalOp
  | |- scans _ (print_ConvertOp _) _ _ => apply scans_print_ConvertOp
  | |- scans _ (emit nl) _ _ => apply scans_nl
  | |- scans _ (emit ")") _ _ => apply scans_close_inline
  | |- scans _ (emit "nop") _ _ => apply scans_nop; assumption
  | |- scans _ (emit (String "(" _)) _ _ =>
      apply scans_open; [assumption | reflexivity]
  | |- scans _ (emit ("TODO: cases/default" ++ nl)) _ _ =>
      apply scans_placeholder; assumption
  | |- scans _ (emit _) _ _ =>
      apply scans_plain;
      first [ reflexivity | apply plain_show_unsigned
            | apply plain_show_int | apply plain_show_bool ]
  end.

(** Printed on a line indented by [n], an expression leaves the scanner on
    that line, with the delimiters open before it and no others. *)
Lemma print_scans (e : Expression) :
  prints_in_place chk Inv room switch_ok show_float show_double e.
Proof.
  induction e using Expression_printed_ind;
    intros n opened margin Hn Hclean Hadmits Hinv;
    cbn [print incIndent decIndent fst snd];
    rewrite ?u32_dec_inc by exact Hn;
    cbn [clean] in Hclean; cbn [admits] in Hadmits;
    split_andb Hclean; split_andb Hadmits.
  all: chain.
Qed.

(** *** Declarations *)

(** An opening delimiter and its tag inside a line. *)
Lemma scans_open_inline (tag : string) (opened : list N) (blanks : N) :
  plain tag = true ->
  scans chk (emit (String "(" tag)) (mkScan opened blanks false)
        (mkScan (blanks :: opened) blanks false).
Proof.
  intros Htag. apply scans_emit. cbn [scan].
  rewrite chk_mid by reflexivity. cbn. now apply scan_plain.
Qed.

(** A closing delimiter on the line of its opening one, and what follows
    it on the line. *)
Lemma scans_close_then (rest : string) (opened : list N) (blanks : N) :
  plain rest = true ->
  scans chk (emit (String ")" rest)) (mkScan (blanks :: opened) blanks false)
        (mkScan opened blanks false).
Proof.
  intros Hrest. apply scans_emit. cbn [scan].
  rewrite chk_mid by reflexivity. cbn. rewrite N.eqb_refl.
  now apply scan_plain.
Qed.

Lemma scans_close_nl (opened : list N) (blanks : N) :
  scans chk (emit (")" ++ nl)) (mkScan (blanks :: opened) blanks false)
        (mkScan opened 0 true).
Proof.
  apply scans_emit. cbn [String.append nl scan].
  rewrite chk_mid by reflexivity. cbn. rewrite N.eqb_refl.
  now rewrite chk_nl.
Qed.

Lemma scans_printBasicType (t : BasicType) (opened : list N) (blanks : N) :
  scans chk (printBasicType t) (mkScan opened blanks false)
        (mkScan opened blanks false).
Proof. destruct t; now apply scans_plain. Qed.

(** A loop whose steps may start in the margin and end inside the line,
    followed by a step that may start in either. *)
Lemma scans_for_each_then {A : Type} (body : A -> outcome) (rest : outcome)
    (l : list A) (opened : list N) (blanks : N) (st' : scan_state) :
  (forall x margin,
     scans chk (body x) (mkScan opened blanks margin)
           (mkScan opened blanks false)) ->
  (forall margin, scans chk rest (mkScan opened blanks margin) st') ->
  forall margin,
    scans chk (for_each body l ;; rest) (mkScan opened blanks margin) st'.
Proof.
  intros Hbody Hrest. induction l as [| x l IH]; intros margin.
  - cbn [for_each]. eapply scans_seq; [apply scans_Out_nil | apply Hrest].
  - cbn [for_each]. intros s Hs.
    apply seq_Out_inv in Hs as (s1 & s2 & H1 & H2 & ->).
    apply seq_Out_inv in H1 as (sx & sl & Hx & Hl & ->).
    rewrite append_assoc, scan_app, (Hbody x margin sx Hx).
    apply (IH false). now rewrite Hl, H2.
Qed.

Lemma scans_FunctionType_print (t : FunctionType) (n : N) (opened : list N)
    (margin : bool) :
  n < 2 ^ 32 -> Inv opened n -> room n = true ->
  FunctionType_plain t = true ->
  scans chk (FunctionType_print t n) (mkScan opened (2 * n) margin)
        (mkScan opened (2 * n) false).
Proof.
  intros Hn Hinv Hroom Hplain. unfold FunctionType_plain in Hplain.
  pose proof (Inv_child _ _ Hinv Hroom) as Hinv1.
  unfold FunctionType_print. cbn [incIndent decIndent].
  rewrite u32_dec_inc by exact Hn.
  eapply scans_seq; [apply scans_open; [exact Hinv | reflexivity] |].
  eapply scans_seq; [apply scans_emit_cstr; exact Hplain |].
  eapply scans_seq; [apply scans_nl |].
  eapply scans_seq; [apply scans_doIndent |].
  apply scans_for_each_then.
  - intros param m.
    eapply scans_seq; [apply scans_open; [exact Hinv1 | reflexivity] |].
    eapply scans_seq; [apply scans_printBasicType |].
    now apply scans_close_then.
  - intros m.
    eapply scans_seq; [apply scans_open; [exact Hinv1 | reflexivity] |].
    eapply scans_seq; [apply scans_printBasicType |].
    eapply scans_seq; [apply scans_close_nl |].
    now apply scans_close.
Qed.

Lemma scans_Import_print (i : Import) (n : N) (opened : list N)
    (margin : bool) :
  n < 2 ^ 32 -> Inv opened n -> Inv (2 * n :: opened) n -> room n = true ->
  Import_plain i = true ->
  scans chk (Import_print i n) (mkScan opened (2 * n) margin)
        (mkScan opened (2 * n) false).
Proof.
  intros Hn Hinv Hinv' Hroom Hplain. unfold Import_plain in Hplain.
  apply andb_true_iff in Hplain as [Hplain Htype].
  apply andb_true_iff in Hplain as [Hplain Hbase].
  apply andb_true_iff in Hplain as [Hname Hmodule].
  unfold Import_print.
  eapply scans_seq; [apply scans_open; [exact Hinv | reflexivity] |].
  eapply scans_seq; [apply scans_emit_cstr; exact Hname |].
  eapply scans_seq; [now apply scans_plain |].
  eapply scans_seq; [apply scans_emit_cstr; exact Hmodule |].
  eapply scans_seq; [now apply scans_plain |].
  eapply scans_seq; [apply scans_emit_cstr; exact Hbase |].
  eapply scans_seq; [now apply scans_plain |].
  eapply scans_seq; [now apply scans_FunctionType_print |].
  apply scans_close_inline.
Qed.

Lemma scans_Export_print (e : Export) (n : N) (opened : list N)
    (margin : bool) :
  Inv opened n -> Export_plain e = true ->
  scans chk (Export_print e n) (mkScan opened (2 * n) margin)
        (mkScan opened (2 * n) false).
Proof.
  intros Hinv Hplain. unfold Export_plain in Hplain.
  apply andb_true_iff in Hplain as [Hname Hvalue].
  unfold Export_print.
  eapply scans_seq; [apply (scans_open ("export " ++ dq)); [exact Hinv | reflexivity] |].
  eapply scans_seq; [apply scans_emit_cstr; exact Hname |].
  eapply scans_seq; [now apply scans_plain |].
  eapply scans_seq; [now apply scans_Var_print |].
  apply scans_close_inline.
Qed.

Lemma scans_Table_print (t : Table) (n : N) (opened : list N)
    (margin : bool) :
  Inv opened n -> forallb Var_plain (Table_vars t) = true ->
  scans chk (Table_print t n) (mkScan opened (2 * n) margin)
        (mkScan opened (2 * n) false).
Proof.
  intros Hinv Hplain. unfold Table_print.
  eapply scans_seq; [apply scans_open; [exact Hinv | reflexivity] |].
  eapply scans_seq; [| apply scans_close_inline].
  apply scans_for_each. rewrite forallb_forall in Hplain.
  apply Forall_forall. intros v Hv.
  eapply scans_seq; [apply scans_Var_print; now apply Hplain |].
  now apply scans_plain.
Qed.

Lemma scans_printParamsAndResult (n : N) (result : BasicType)
    (params : list NameType) (opened : list N) (blanks : N) :
  forallb NameType_plain params = true ->
  scans chk (printParamsAndResult n result params)
        (mkScan opened blanks false) (mkScan opened blanks false).
Proof.
  intros Hplain. unfold printParamsAndResult.
  eapply scans_seq.
  - apply scans_for_each. rewrite forallb_forall in Hplain.
    apply Forall_forall. intros p Hp.
    eapply scans_seq; [now apply scans_open_inline |].
    eapply scans_seq; [apply scans_emit_cstr; now apply Hplain |].
    eapply scans_seq; [now apply scans_plain |].
    eapply scans_seq; [apply scans_printBasicType |].
    now apply scans_close_then.
  - eapply scans_seq; [now apply scans_open_inline |].
    eapply scans_seq; [apply scans_printBasicType |].
    apply scans_close_inline.
Qed.

Lemma scans_Function_print (f : Function) (n : N) (opened : list N)
    (margin : bool) :
  n < 2 ^ 32 -> Inv opened n -> room n = true ->
  Function_plain f = true ->
  admits room switch_ok (u32 (n + 1)) (Function_body f) = true ->
  scans chk (Function_print show_float show_double f n)
        (mkScan opened (2 * n) margin) (mkScan opened (2 * n) false).
Proof.
  intros Hn Hinv Hroom Hplain Hadmits. unfold Function_plain in Hplain.
  apply andb_true_iff in Hplain as [Hplain Hbody].
  apply andb_true_iff in Hplain as [Hplain Hlocals].
  apply andb_true_iff in Hplain as [Hname Hparams].
  pose proof (Inv_child _ _ Hinv Hroom) as Hinv1.
  unfold Function_print, printFullLine. cbn [incIndent decIndent].
  rewrite u32_dec_inc by exact Hn.
  eapply scans_seq; [apply scans_open; [exact Hinv | reflexivity] |].
  eapply scans_seq; [apply scans_emit_cstr; exact Hname |].
  eapply scans_seq; [now apply scans_plain |].
  eapply scans_seq; [now apply scans_printParamsAndResult |].
  eapply scans_seq; [apply scans_nl |].
  eapply scans_seq.
  { apply scans_for_each. rewrite forallb_forall in Hlocals.
    apply Forall_forall. intros p Hp.
    eapply scans_seq; [apply scans_doIndent |].
    eapply scans_seq; [apply scans_open; [exact Hinv1 | reflexivity] |].
    eapply scans_seq; [apply scans_emit_cstr; now apply Hlocals |].
    eapply scans_seq; [now apply scans_plain |].
    eapply scans_seq; [apply scans_printBasicType |].
    apply scans_close_nl. }
  eapply scans_seq; [| now apply scans_close].
  apply scans_printFullLine_with.
  apply print_scans; auto using u32_lt.
Qed.

(** A declaration on a line of its own. *)
Lemma scans_line (o : outcome) (n : N) (opened : list N) :
  scans chk o (mkScan opened (2 * n) true) (mkScan opened (2 * n) false) ->
  scans chk (doIndent n ;; o ;; emit nl) (mkScan opened 0 true)
        (mkScan opened 0 true).
Proof.
  intros H. eapply scans_seq; [apply scans_doIndent |].
  eapply scans_seq; [exact H | apply scans_nl].
Qed.

Lemma scans_Module_print (m : Module) :
  Inv [] 0 -> room 0 = true -> room 1 = true ->
  (imports m = [] \/ Inv [2 * 1; 2 * 0] 1) ->
  Module_plain m = true ->
  forallb (fun f => admits room switch_ok 2 (Function_body f)) (functions m)
  = true ->
  scans chk (Module_print show_float show_double m) (mkScan [] (2 * 0) true)
        (mkScan [] 0 true).
Proof.
  intros Hinv Hroom0 Hroom1 Himports Hplain Hadmits.
  unfold Module_plain in Hplain.
  apply andb_true_iff in Hplain as [Hplain Hfunctions].
  apply andb_true_iff in Hplain as [Hplain Htable].
  apply andb_true_iff in Hplain as [Hplain Hexports].
  apply andb_true_iff in Hplain as [Htypes Himps].
  rewrite forallb_forall in Hfunctions, Hexports, Htypes, Himps, Hadmits.
  pose proof (Inv_child _ _ Hinv Hroom0) as Hinv1.
  change (u32 (0 + 1)) with 1 in Hinv1.
  unfold Module_print. cbn [incIndent decIndent].
  change (u32 (0 + 1)) with 1.
  change (u32 (1 + (2 ^ 32 - 1))) with 0.
  eapply scans_seq; [apply scans_open; [exact Hinv | reflexivity] |].
  eapply scans_seq; [apply scans_nl |].
  eapply scans_seq.
  { apply scans_for_each, Forall_forall. intros t Ht. apply scans_line.
    apply scans_FunctionType_print; auto. reflexivity. }
  eapply scans_seq.
  { apply scans_for_each, Forall_forall. intros i Hi. apply scans_line.
    destruct Himports as [Hnone | Hinv2];
      [rewrite Hnone in Hi; contradiction |].
    apply scans_Import_print; auto. reflexivity. }
  eapply scans_seq.
  { apply scans_for_each, Forall_forall. intros e He. apply scans_line.
    apply scans_Export_print; auto. }
  eapply scans_seq; [apply scans_doIndent |].
  eapply scans_seq; [now apply scans_Table_print |].
  eapply scans_seq; [apply scans_nl |].
  eapply scans_seq.
  { apply scans_for_each, Forall_forall. intros f Hf. apply scans_line.
    apply scans_Function_print; auto; try reflexivity.
    all: change (u32 (1 + 1)) with 2; now apply Hadmits. }
  eapply scans_seq; [now apply scans_close |].
  apply scans_nl.
Qed.

End Scanning.

Lemma admits_always (e : Expression) :
  forall n, admits (fun _ => true) true n e = true.
Proof.
  induction e using Expression_printed_ind; intros n; cbn [admits];
    repeat match goal with
           | IH : forall n, admits _ _ n ?e = true |- _ => rewrite IH; clear IH
           | IH : Forall _ ?l |- context [forallb _ ?l] =>
               rewrite (proj2 (forallb_forall _ l))
                 by (intros x Hx; exact (proj1 (Forall_forall _ l) IH x Hx _));
               clear IH
           | |- context [match ?p with Some _ => _ | None => _ end] =>
               destruct p
           end; reflexivity.
Qed.

Section EveryExpression.

Variable show_float : N -> string.
Variable show_double : N -> string.

Hypothesis show_float_plain : forall v, plain (show_float v) = true.
Hypothesis show_double_plain : forall v, plain (show_double v) = true.

(** X1. Every expression that prints, at any indentation, yields a text
    whose delimiters are balanced, each closed on a line indented like the
    line it was opened on, provided the names and numbers it prints hold no
    delimiter and no line break. *)
Theorem print_well_nested (e : Expression) (n : N) (s : string) :
  n < 2 ^ 32 ->
  clean e = true ->
  print show_float show_double e n = Out s ->
  well_nested (indentation n ++ s) = true.
Proof.
  intros Hn Hclean Hprint. unfold well_nested, scan_start.
  rewrite scan_app, scan_indentation by reflexivity.
  rewrite N.add_0_l.
  assert (H : prints_in_place (fun _ _ => true) (fun _ _ => True)
                              (fun _ => true) true show_float show_double e).
  { apply print_scans; auto. }
  rewrite (H n [] true Hn Hclean (admits_always e n) I s Hprint).
  reflexivity.
Qed.

Lemma line_start_ok_mid (base : N) (c : ascii) (st : scan_state) :
  in_margin st = false -> line_start_ok base c st = true.
Proof.
  intros H. unfold line_start_ok. rewrite H. cbn [negb].
  now rewrite orb_true_r.
Qed.

Lemma line_start_ok_first (base : N) (c : ascii) (opened : list N) (n : N) :
  base + N.of_nat (List.length opened) = n ->
  c <> ")"%char ->
  line_start_ok base c (mkScan opened (2 * n) true) = true.
Proof.
  intros Hinv Hc. unfold line_start_ok, depth_at.
  cbn [in_margin line_blanks open_at negb].
  destruct ((c =? "010")%char || (c =? " ")%char || false)%bool;
    [reflexivity |].
  apply Ascii.eqb_neq in Hc. rewrite Hc. apply N.eqb_eq. lia.
Qed.

Lemma line_start_ok_closing (base : N) (opened : list N) (n : N) :
  base + N.of_nat (List.length opened) = n ->
  line_start_ok base ")"%char (mkScan (2 * n :: opened) (2 * n) true) = true.
Proof.
  intros Hinv. unfold line_start_ok, depth_at.
  cbn [in_margin line_blanks open_at negb Ascii.eqb Bool.eqb orb List.length].
  apply N.eqb_eq. lia.
Qed.

(** X2. Every expression that prints and holds no [Switch] among the nodes
    printed yields a text in which, besides, every line is indented by its
    nesting depth, as long as the indentation does not wrap. *)
Theorem print_depth_indented (e : Expression) (n : N) (s : string) :
  n < 2 ^ 32 ->
  clean e = true ->
  admits (fun m => m + 1 <? 2 ^ 32) false n e = true ->
  print show_float show_double e n = Out s ->
  depth_indented n (indentation n ++ s) = true.
Proof.
  intros Hn Hclean Hadmits Hprint. unfold depth_indented, scan_start.
  rewrite scan_app, scan_indentation by reflexivity.
  rewrite N.add_0_l.
  assert (H : prints_in_place
                (line_start_ok n)
                (fun opened m => n + N.of_nat (List.length opened) = m)
                (fun m => m + 1 <? 2 ^ 32) false show_float show_double e).
  { apply print_scans; auto.
    - apply line_start_ok_mid.
    - intros c opened m. apply line_start_ok_first.
    - intros opened m. apply line_start_ok_closing.
    - intros opened m Hinv Hroom. apply N.ltb_lt in Hroom.
      rewrite u32_inc by exact Hroom. cbn [List.length]. lia.
    - discriminate. }
  rewrite (H n [] true Hn Hclean Hadmits) with (s := s);
    [reflexivity | cbn [List.length]; lia | exact Hprint].
Qed.

End EveryExpression.

(** ** The faults of the printers *)

Lemma fault_of_seq (a b : outcome) :
  fault_of (a ;; b) = or_else (fault_of a) (fault_of b).
Proof. destruct a, b; reflexivity. Qed.

Lemma fault_of_for_each {A : Type} (body : A -> outcome) (l : list A) :
  fault_of (for_each body l) = first_of (fun x => fault_of (body x)) l.
Proof.
  induction l as [| x l IH]; cbn [for_each first_of fold_right];
    [reflexivity |].
  rewrite fault_of_seq. f_equal. exact IH.
Qed.

Lemma first_of_ext {A : Type} (f g : A -> option fault) (l : list A) :
  Forall (fun x => f x = g x) l -> first_of f l = first_of g l.
Proof.
  induction 1 as [| x l Hx _ IH]; cbn [first_of fold_right];
    [reflexivity |].
  rewrite Hx. f_equal. exact IH.
Qed.

Lemma fault_of_Var_print (v : Var) : fault_of (Var_print v) = Var_fault v.
Proof.
  unfold Var_print. destruct v as [n | s]; cbn [Var_get_num Var_fault].
  - now destruct (n <? MAX_NUM)%N.
  - destruct (u32 (ptr s) <? MAX_NUM)%N; [reflexivity |].
    unfold emit_cstr. now destruct (Name_is_null s).
Qed.

Lemma fault_of_emit_cstr (a : Name) : fault_of (emit_cstr a) = None.
Proof. unfold emit_cstr. now destruct (Name_is_null a). Qed.

(** *** The stream stays good while an expression is printed *)

Lemma stream_good_seq (a b : outcome) :
  stream_good a = true -> stream_good b = true -> stream_good (a ;; b) = true.
Proof. destruct a, b; cbn; congruence. Qed.

Lemma stream_good_for_each {A : Type} (body : A -> outcome) (l : list A) :
  Forall (fun x => stream_good (body x) = true) l ->
  stream_good (for_each body l) = true.
Proof.
  induction 1 as [| x l Hx _ IH]; cbn [for_each]; [reflexivity |].
  now apply stream_good_seq.
Qed.

Lemma stream_good_Var_print (v : Var) : stream_good (Var_print v) = true.
Proof.
  unfold Var_print. destruct (Var_get_num v <? MAX_NUM)%N eqn:E;
    [reflexivity |].
  destruct v as [n | s]; [reflexivity |].
  cbn [Var_get_num] in E. apply N.ltb_ge in E.
  rewrite emit_cstr_set; [reflexivity |].
  apply u32_set. unfold MAX_NUM in E. lia.
Qed.

Lemma or_else_None_r (a : option fault) : or_else a None = a.
Proof. now destruct a. Qed.

Section PrinterFaults.

Variable show_float : N -> string.
Variable show_double : N -> string.

Lemma fault_of_Literal_print (l : Literal) :
  fault_of (Literal_print show_float show_double l) = Literal_fault l.
Proof. now destruct l. Qed.

Lemma fault_of_printFullLine_with (n : N) (e : Expression) :
  fault_of (printFullLine_with (print show_float show_double) n e)
  = fault_of (print show_float show_double e n).
Proof.
  unfold printFullLine_with. rewrite !fault_of_seq. cbn [fault_of emit doIndent or_else].
  apply or_else_None_r.
Qed.

Lemma fault_of_lines (n : N) (l : list Expression) :
  Forall (fun e => forall n,
            fault_of (print show_float show_double e n) = first_fault e) l ->
  fault_of (for_each (printFullLine_with (print show_float show_double) n) l)
  = first_of first_fault l.
Proof.
  intros IH. rewrite fault_of_for_each. apply first_of_ext.
  eapply Forall_impl; [| exact IH].
  intros e He. cbn beta. now rewrite fault_of_printFullLine_with.
Qed.

Lemma fault_of_printFullLine_if (n : N) (p : option Expression) :
  match p with
  | Some e => forall n,
      fault_of (print show_float show_double e n) = first_fault e
  | None => True
  end ->
  fault_of (printFullLine_if (print show_float show_double) n p)
  = match p with
    | Some e => first_fault e
    | None => None
    end.
Proof.
  destruct p as [e |]; cbn [printFullLine_if]; [| reflexivity].
  intros IH. now rewrite fault_of_printFullLine_with.
Qed.

(** The fault that [print] stops with is the first one that the tree holds
    in print order, whatever the indentation. *)
Lemma print_fault (e : Expression) :
  forall n, fault_of (print show_float show_double e n) = first_fault e.
Proof.
  induction e using Expression_printed_ind; intros n;
    cbn [print incIndent decIndent first_fault];
    rewrite ?fault_of_seq, ?fault_of_Var_print, ?fault_of_Literal_print,
      ?fault_of_printFullLine_with;
    repeat match goal with
           | IH : forall n, fault_of (print _ _ ?e n) = _ |- _ =>
               rewrite !IH; clear IH
           | IH : Forall _ ?l |- _ =>
               rewrite (fault_of_lines _ l IH); clear IH
           | IH : match ?p with Some _ => _ | None => _ end |- _ =>
               rewrite (fault_of_printFullLine_if _ p IH); clear IH
           end;
    cbn [fault_of emit doIndent or_else];
    rewrite ?or_else_None_r;
    try reflexivity.
  - destruct (Var_is var); [| reflexivity].
    now rewrite fault_of_seq, fault_of_Var_print.
  - destruct (Var_is out); [| reflexivity].
    rewrite !fault_of_seq, fault_of_Var_print. cbn [fault_of emit or_else].
    destruct (Var_is in_); [| reflexivity].
    now rewrite fault_of_seq, fault_of_Var_print.
  - now destruct op.
  - now destruct op.
  - now destruct op.
  - now destruct op.
Qed.

Lemma stream_good_printFullLine_with (n : N) (e : Expression) :
  stream_good (print show_float show_double e n) = true ->
  stream_good (printFullLine_with (print show_float show_double) n e) = true.
Proof.
  intros H. unfold printFullLine_with.
  apply stream_good_seq; [reflexivity |].
  now apply stream_good_seq.
Qed.

(** No name is streamed by [print] but through [Var::print], which streams
    one only when its pointer is not below MAX_NUM, hence not null. *)
Lemma print_stream_good (e : Expression) :
  forall n, stream_good (print show_float show_double e n) = true.
Proof.
  induction e using Expression_printed_ind; intros n;
    cbn [print incIndent decIndent];
    repeat first
      [ reflexivity
      | assumption
      | apply stream_good_Var_print
      | apply stream_good_printFullLine_with
      | apply stream_good_seq
      | apply stream_good_for_each;
        match goal with
        | IH : Forall _ ?l |- Forall _ ?l =>
            eapply Forall_impl; [| exact IH]; cbn beta; intros
        end
      | match goal with
        | IH : forall n, stream_good (print _ _ ?e n) = true
          |- stream_good (print _ _ ?e _) = true => apply IH
        | |- context [printFullLine_if _ _ ?p] =>
            destruct p; cbn [printFullLine_if]
        | |- context [if ?b then _ else _] => destruct b
        | |- stream_good (Literal_print _ _ ?l) = true => destruct l
        | |- stream_good (print_UnaryOp ?o) = true => destruct o
        | |- stream_good (print_BinaryOp ?o) = true => destruct o
        | |- stream_good (print_RelationalOp ?o) = true => destruct o
        | |- stream_good (print_ConvertOp ?o) = true => destruct o
        end ].
Qed.

Lemma or_else_not (a b : option fault) (f : fault) :
  a <> Some f -> b <> Some f -> or_else a b <> Some f.
Proof. destruct a; cbn; auto. Qed.

Lemma first_of_not {A : Type} (g : A -> option fault) (l : list A)
    (f : fault) :
  Forall (fun x => g x <> Some f) l -> first_of g l <> Some f.
Proof.
  induction 1 as [| x l Hx _ IH]; cbn [first_of fold_right];
    [discriminate |].
  now apply or_else_not.
Qed.

Lemma Var_fault_not_assert (v : Var) : Var_fault v <> Some AssertFailed.
Proof.
  destruct v as [n | s]; cbn; [| discriminate].
  destruct (n <? MAX_NUM)%N; discriminate.
Qed.

(** No assertion is checked while printing. *)
Lemma first_fault_not_assert (e : Expression) :
  first_fault e <> Some AssertFailed.
Proof.
  induction e using Expression_printed_ind; cbn [first_fault];
    repeat first
      [ apply or_else_not
      | apply Var_fault_not_assert
      | apply first_of_not; assumption
      | assumption
      | discriminate
      | match goal with
        | |- context [if ?b then _ else _] => destruct b
        | |- context [match ?p with Some _ => _ | None => _ end] =>
            destruct p
        | |- context [Literal_fault ?l] => destruct l; cbn
        | |- context [UnaryOp_fault ?o] => destruct o; cbn
        | |- context [ConvertOp_fault ?o] => destruct o; cbn
        end ].
Qed.

(** X3. The fault that [Expression::print] stops with, if any, depends on
    the tree alone, not on the indentation nor on how floats are written: it
    is the first, in print order, of a Label or Host node (no printer), a
    literal tagged none or an operator that [Unary::print] or
    [Convert::print] does not know (abort), and an identifier whose number
    is not below MAX_NUM (the union read through the wrong member).  No
    assertion fails while printing, and printing returns exactly when the
    tree holds none of these. *)
Theorem print_fault_is_first_fault (e : Expression) (n : N) :
  fault_of (print show_float show_double e n) = first_fault e /\
  first_fault e <> Some AssertFailed /\
  ((exists s, print show_float show_double e n = Out s) <->
   first_fault e = None).
Proof.
  split; [apply print_fault |]. split; [apply first_fault_not_assert |].
  rewrite <- (print_fault e n).
  pose proof (print_stream_good e n) as Hgood.
  destruct (print show_float show_double e n) as [s | s | f s]; cbn; split.
  - reflexivity.
  - intros _. now exists s.
  - intros [t H]. discriminate H.
  - discriminate Hgood.
  - intros [t H]. discriminate H.
  - discriminate.
Qed.

End PrinterFaults.

(** ** The layout of the arena *)

Local Open Scope Z_scope.

(** One allocation, given its result. *)
Lemma alloc_layout (T : list byte) (a a' : Arena) (p : pointer) :
  Arena_wf a -> Arena_aligned a -> accepted T ->
  alloc T a = Ok (p, a') ->
  Arena_wf a' /\ Arena_aligned a' /\
  well_placed p T /\
  reserved a' p (aligned_size T) /\
  (forall q sz, reserved a q sz -> reserved a' q sz /\ ends_before q sz p).
Proof.
  intros Hwf Hal Hacc Halloc.
  destruct (alloc_step T a Hwf Hacc) as (p0 & a0 & Halloc0 & Hwf' & _).
  rewrite Halloc in Halloc0. injection Halloc0 as <- <-.
  destruct (alloc_shape T a Hwf Hacc)
    as (init & c & off & Hshape & Hc & Hoff0 & Hoff & Hcase).
  rewrite Halloc in Hshape. injection Hshape as -> ->.
  pose proof (aligned_size_bounds T (proj1 Hacc)) as [Hb Hmod].
  pose proof (sizeof_nonneg T) as Hs.
  assert (Hoff8 : off mod 8 = 0).
  { destruct Hcase as [[_ ->] | [Ha ->]]; [reflexivity |].
    apply Hal. rewrite Ha. now destruct init. }
  split; [exact Hwf' |].
  split; [| split; [| split]].
  - intros _. cbn [index].
    rewrite Z.add_mod, Hoff8, Hmod by lia. reflexivity.
  - repeat split; cbn [pointer_offset]; assumption.
  - unfold reserved. cbn [chunks index pointer_chunk pointer_offset].
    rewrite length_app. cbn [List.length]. repeat split; lia.
  - intros q sz (Hq & Hq0 & Hqi).
    unfold reserved, ends_before.
    cbn [chunks index pointer_chunk pointer_offset].
    rewrite length_app. cbn [List.length].
    destruct Hcase as [[Ha ->] | [Ha ->]]; rewrite Ha in *.
    + split; [repeat split; lia | left; lia].
    + rewrite length_app in Hq, Hqi. cbn [List.length] in Hq, Hqi.
      destruct (Nat.eq_dec (pointer_chunk q) (List.length init))
        as [Hlast | Hnot].
      * specialize (Hqi ltac:(lia)).
        split; [repeat split; lia | right; lia].
      * split; [repeat split; lia | left; lia].
Qed.

Lemma Forall_combine_fst {A B : Type} (P : A -> Prop) (l : list A)
    (l' : list B) :
  Forall P l -> Forall (fun x => P (fst x)) (combine l l').
Proof.
  intros H. apply Forall_forall. intros [x y] Hin.
  apply in_combine_l in Hin. rewrite Forall_forall in H. now apply H.
Qed.

(** A run of allocations, given its result. *)
Lemma alloc_all_layout (Ts : list (list byte)) :
  forall (a a' : Arena) (ps : list pointer),
    Arena_wf a -> Arena_aligned a -> Forall accepted Ts ->
    alloc_all Ts a = Ok (ps, a') ->
    Arena_wf a' /\ Arena_aligned a' /\
    Forall2 well_placed ps Ts /\
    (forall q sz, reserved a q sz ->
                  reserved a' q sz /\ Forall (ends_before q sz) ps) /\
    ForallOrdPairs
      (fun x y => ends_before (fst x) (aligned_size (snd x)) (fst y))
      (combine ps Ts).
Proof.
  induction Ts as [| T rest IH]; intros a a' ps Hwf Hal Hacc Hrun.
  - cbn in Hrun. injection Hrun as <- <-.
    split; [exact Hwf |]. split; [exact Hal |].
    split; [constructor |]. split; [| constructor].
    intros q sz Hq. split; [exact Hq | constructor].
  - apply Forall_cons_iff in Hacc as [HT Hrest].
    cbn [alloc_all] in Hrun.
    destruct (alloc T a) as [[p a1] | f] eqn:Halloc; [| discriminate].
    destruct (alloc_all rest a1) as [[ps' a2] | f] eqn:Hrun';
      [| discriminate].
    injection Hrun as <- <-.
    destruct (alloc_layout T a a1 p Hwf Hal HT Halloc)
      as (Hwf1 & Hal1 & Hplace & Hres & Hkeep).
    destruct (IH a1 a2 ps' Hwf1 Hal1 Hrest Hrun')
      as (Hwf2 & Hal2 & Hplaces & Hkeep2 & Hpairs).
    split; [exact Hwf2 |]. split; [exact Hal2 |].
    split; [now constructor |]. split.
    + intros q sz Hq. destruct (Hkeep q sz Hq) as [Hq1 Hqp].
      destruct (Hkeep2 q sz Hq1) as [Hq2 Hqps].
      split; [exact Hq2 | now constructor].
    + cbn [combine]. constructor; [| exact Hpairs].
      destruct (Hkeep2 p _ Hres) as [_ Hp].
      now apply Forall_combine_fst with (P := ends_before p (aligned_size T)).
Qed.

(** X7. On a new arena, every pointer that a run of allocations returns is
    a multiple of 8 into its chunk, and its aligned size ends before the
    last byte of the chunk; the bytes reserved for an earlier allocation end
    before a later one starts, or lie in another chunk. *)
Theorem Arena_layout (Ts : list (list byte)) (index0 : Z) (ps : list pointer)
    (a : Arena) :
  Forall accepted Ts ->
  alloc_all Ts (mkArena [] index0) = Ok (ps, a) ->
  Forall2 well_placed ps Ts /\
  ForallOrdPairs
    (fun x y => ends_before (fst x) (aligned_size (snd x)) (fst y))
    (combine ps Ts).
Proof.
  intros Hacc Hrun.
  destruct (alloc_all_layout Ts (mkArena [] index0) a ps) as (_ & _ & H1 & _ & H2);
    auto.
  - split; cbn; [constructor | congruence].
  - intros H. now cbn in H.
Qed.

Lemma accepted_iff (T : list byte) :
  sizeof T + 7 < 2 ^ 64 -> (aligned_size T < CHUNK <-> sizeof T <= 9992).
Proof.
  intros H. rewrite aligned_size_eq by exact H. unfold CHUNK.
  pose proof (Z.div_mod (sizeof T + 7) 8 ltac:(lia)) as Hdm.
  pose proof (Z.mod_pos_bound (sizeof T + 7) 8 ltac:(lia)) as Hb.
  lia.
Qed.

(** X8. [alloc] returns exactly for the types of at most 9992 bytes, on any
    arena; for a larger type its assertion fails, also for the types of 9993
    to 9999 bytes, which are smaller than a chunk. *)
Theorem alloc_returns_iff (T : list byte) (a : Arena) :
  sizeof T + 7 < 2 ^ 64 ->
  ((exists p a', alloc T a = Ok (p, a')) <-> sizeof T <= 9992) /\
  (9992 < sizeof T -> alloc T a = Err AssertFailed).
Proof.
  intros H. pose proof (accepted_iff T H) as Hiff. unfold alloc.
  destruct (aligned_size T <? CHUNK) eqn:E; cbn [negb].
  - apply Z.ltb_lt in E. split; [| lia].
    split; [intros _; now apply Hiff | intros _; eauto].
  - apply Z.ltb_ge in E. split; [| reflexivity].
    split; [intros (p & a' & Hp); discriminate | lia].
Qed.

(** X9. [clear] leaves no chunk, so no pointer into the arena is valid
    after it; the next allocation opens a chunk and returns its first byte,
    whatever value [index] was left with, and the arena then holds that one
    chunk, the object in it, and the cursor at the aligned size. *)
Theorem alloc_after_clear (T : list byte) (a : Arena) :
  accepted T ->
  (forall p len, ~ valid_pointer (clear a) p len) /\
  exists a',
    alloc T (clear a) = Ok (mkPointer 0 0, a') /\
    List.length (chunks a') = 1%nat /\
    index a' = aligned_size T /\
    read a' (mkPointer 0 0) (List.length T) = map Some T.
Proof.
  intros Hacc. split.
  - intros p len (H & _). cbn in H. lia.
  - assert (Hwf : Arena_wf (clear a)).
    { split; cbn; [constructor | congruence]. }
    destruct (alloc_step T (clear a) Hwf Hacc)
      as (p & a' & Halloc & _ & Hlive & Hread & _ & _ & _ & Hfirst).
    destruct (Hfirst eq_refl) as [Hone Hidx].
    destruct (alloc_shape T (clear a) Hwf Hacc)
      as (init & c & off & Hshape & _ & _ & _ & Hcase).
    rewrite Halloc in Hshape. injection Hshape as Hp Ha'.
    destruct Hcase as [[Hinit ->] | [Hinit _]];
      [| cbn in Hinit; now destruct init].
    cbn in Hinit. subst init. cbn in Hp. subst p.
    exists a'. auto.
Qed.

Local Close Scope Z_scope.

(** ** Identifiers *)

(** X11. Among the identifiers that a constructor builds, [is()] answers
    false on the default-constructed one only. *)
Theorem Var_is_iff_not_default (v : Var) :
  Var_constructed v -> (Var_is v = false <-> v = Var_default).
Proof.
  intros Hv. destruct Hv as [| n v Hn | s v Hs].
  - split; reflexivity.
  - apply Var_of_num_inv in Hn as [-> Hn]. unfold Var_is, Var_default.
    cbn [Var_get_num]. split.
    + intros H. apply negb_false_iff, N.eqb_eq in H. lia.
    + intros [= H]. lia.
  - apply Var_of_name_inv in Hs as [-> Hs]. unfold Var_is, Var_default.
    cbn [Var_get_num]. split; [| discriminate].
    intros H. apply negb_false_iff, N.eqb_eq in H.
    unfold MAX_NUM in Hs. lia.
Qed.

Lemma Var_is_iff_not_default_witness :
  (Var_is (Var_num 3) = false <-> Var_num 3 = Var_default) /\
  (Var_is (Var_str (mkName "f" 7000000)) = false
   <-> Var_str (mkName "f" 7000000) = Var_default).
Proof.
  split.
  - apply Var_is_iff_not_default. apply (constructed_num 3). reflexivity.
  - apply Var_is_iff_not_default.
    apply (constructed_name (mkName "f" 7000000)). reflexivity.
Defined.

Lemma show_unsigned_inj (n m : N) :
  show_unsigned n = show_unsigned m -> n = m.
Proof.
  intros H. pose proof (read_decimal_show_unsigned n) as Hn.
  rewrite H, read_decimal_show_unsigned in Hn. now injection Hn.
Qed.

(** X12. Printing an identifier that a constructor built returns, and two
    identifiers built from different numbers print different texts. *)
Theorem Var_print_constructed :
  (forall v, Var_constructed v -> exists s, Var_print v = Out s) /\
  (forall n m v w,
     Var_of_num n = Ok v -> Var_of_num m = Ok w ->
     Var_print v = Var_print w -> n = m).
Proof.
  split.
  - intros v Hv. destruct Hv as [| n v Hn | s v Hs].
    + now exists "0".
    + apply Var_of_num_inv in Hn as [-> Hn].
      exists (show_unsigned n). apply Var_print_num. lia.
    + apply Var_of_name_inv in Hs as [-> Hs].
      exists (str s). now apply Var_print_str.
  - intros n m v w Hn Hm Heq.
    apply Var_of_num_inv in Hn as [-> Hn].
    apply Var_of_num_inv in Hm as [-> Hm].
    rewrite !Var_print_num in Heq by lia.
    injection Heq as Heq. now apply show_unsigned_inj.
Qed.

Lemma Var_print_constructed_witness :
  (exists s, Var_print (Var_num 12) = Out s) /\ 12%N = 12%N.
Proof.
  destruct Var_print_constructed as [Hret Hinj]. split.
  - apply Hret. apply (constructed_num 12). reflexivity.
  - apply (Hinj 12%N 12%N (Var_num 12) (Var_num 12)); reflexivity.
Defined.

(** ** Tokens of types and operators *)

(** X13. The tokens are unambiguous: two basic types, two binary operators
    or two relational operators that print the same token are the same, and
    so are two conversion operators that [Convert::print] writes with the
    same token. *)
Theorem tokens_distinct :
  (forall a b, printBasicType a = printBasicType b -> a = b) /\
  (forall a b, print_BinaryOp a = print_BinaryOp b -> a = b) /\
  (forall a b, print_RelationalOp a = print_RelationalOp b -> a = b) /\
  (forall a b s,
     print_ConvertOp a = Out s -> print_ConvertOp b = Out s -> a = b).
Proof.
  split; [| split; [| split]].
  - intros a b H; destruct a, b; try reflexivity; discriminate H.
  - intros a b H; destruct a, b; try reflexivity; discriminate H.
  - intros a b H; destruct a, b; try reflexivity; discriminate H.
  - intros a b s Ha Hb; destruct a; try discriminate Ha;
      destruct b; try discriminate Hb; try reflexivity;
      cbn in Ha, Hb; rewrite <- Ha in Hb; discriminate Hb.
Qed.

Lemma tokens_distinct_witness :
  i32 = i32 /\ Add = Add /\ LtS = LtS /\ ConvertSInt32 = ConvertSInt32.
Proof.
  destruct tokens_distinct as (Ht & Hb & Hr & Hc).
  split; [| split; [| split]].
  - apply Ht. reflexivity.
  - apply Hb. reflexivity.
  - apply Hr. reflexivity.
  - apply (Hc _ _ "sint32toDouble"); reflexivity.
Defined.

(** ** Indentation *)

Local Open Scope N_scope.

(** X14. [doIndent] writes two blanks for each level and nothing else. *)
Theorem indentation_blanks (n : N) :
  String.length (indentation n) = (2 * N.to_nat n)%nat /\
  all_blank (indentation n) = true.
Proof.
  induction n as [| n [IHl IHb]] using N.peano_ind.
  - split; reflexivity.
  - rewrite indentation_succ, N2Nat.inj_succ. cbn [String.append String.length all_blank].
    rewrite IHl, IHb. split; [lia | reflexivity].
Qed.

(** X15. An [incIndent] followed by a [decIndent] hands back the caller's
    indentation, for every value of the 32-bit counter, also the largest one
    where the increment wraps to zero; between them they write a line break
    and then the closing delimiter at the caller's indentation. *)
Theorem incIndent_decIndent (n : N) :
  n < 2 ^ 32 ->
  fst (incIndent n) = Out nl /\
  decIndent (snd (incIndent n)) = (Out (indentation n ++ ")"), n).
Proof.
  intros Hn. split; [reflexivity |].
  unfold decIndent, incIndent. cbn [snd].
  rewrite u32_dec_inc by exact Hn. reflexivity.
Qed.

Lemma incIndent_decIndent_witness :
  fst (incIndent 5) = Out nl /\
  decIndent (snd (incIndent 5)) = (Out (indentation 5 ++ ")"), 5).
Proof.
  apply (incIndent_decIndent 5). reflexivity.
Defined.

Local Close Scope N_scope.

(** ** Calls that return with the stream good *)

Lemma wrote_all_iff (o : outcome) :
  wrote_all o = true <-> exists s, o = Out s.
Proof.
  destruct o as [s | s | f s]; cbn; split; try discriminate.
  - intros _. now exists s.
  - reflexivity.
  - intros [t H]. discriminate H.
  - intros [t H]. discriminate H.
Qed.

Lemma wrote_all_split (o : outcome) :
  wrote_all o = returned o && stream_good o.
Proof. now destruct o. Qed.

Lemma wrote_all_seq (a b : outcome) :
  wrote_all (a ;; b) = wrote_all a && wrote_all b.
Proof. destruct a, b; reflexivity. Qed.

Lemma wrote_all_for_each {A : Type} (body : A -> outcome) (l : list A) :
  wrote_all (for_each body l) = forallb (fun x => wrote_all (body x)) l.
Proof.
  induction l as [| x l IH]; cbn [for_each forallb]; [reflexivity |].
  now rewrite wrote_all_seq, IH.
Qed.

Lemma wrote_all_emit_cstr (a : Name) : wrote_all (emit_cstr a) = named a.
Proof. unfold emit_cstr, named. now destruct (Name_is_null a). Qed.

Lemma wrote_all_printBasicType (t : BasicType) :
  wrote_all (printBasicType t) = true.
Proof. now destruct t. Qed.

Lemma wrote_all_line (o : outcome) (n : N) :
  wrote_all (doIndent n ;; o ;; emit nl) = wrote_all o.
Proof.
  rewrite !wrote_all_seq. cbn [wrote_all emit doIndent andb].
  apply andb_true_r.
Qed.

Lemma wrote_all_Var_print (v : Var) :
  wrote_all (Var_print v) = no_fault (Var_fault v).
Proof.
  rewrite wrote_all_split, stream_good_Var_print, andb_true_r.
  unfold returned. now rewrite fault_of_Var_print.
Qed.

Lemma wrote_all_print (show_float show_double : N -> string)
    (e : Expression) (n : N) :
  wrote_all (print show_float show_double e n) = no_fault (first_fault e).
Proof.
  rewrite wrote_all_split, print_stream_good, andb_true_r.
  unfold returned. now rewrite print_fault.
Qed.

Lemma forallb_pointwise {A : Type} (f g : A -> bool) (l : list A) :
  (forall x, f x = g x) -> forallb f l = forallb g l.
Proof.
  intros H. induction l as [| x l IH]; cbn [forallb]; [reflexivity |].
  now rewrite H, IH.
Qed.

Lemma forallb_true {A : Type} (l : list A) :
  forallb (fun _ : A => true) l = true.
Proof. induction l as [| x l IH]; cbn [forallb]; auto. Qed.

Lemma forallb_andb {A : Type} (f g : A -> bool) (l : list A) :
  forallb (fun x => f x && g x) l = forallb f l && forallb g l.
Proof.
  induction l as [| x l IH]; cbn [forallb]; [reflexivity |].
  rewrite IH. destruct (f x), (g x), (forallb f l); reflexivity.
Qed.

Lemma no_fault_or_else (a b : option fault) :
  no_fault (or_else a b) = no_fault a && no_fault b.
Proof. now destruct a, b. Qed.

Lemma no_fault_first_of {A : Type} (g : A -> option fault) (l : list A) :
  no_fault (first_of g l) = forallb (fun x => no_fault (g x)) l.
Proof.
  induction l as [| x l IH]; cbn [first_of fold_right forallb];
    [reflexivity |].
  now rewrite no_fault_or_else, <- IH.
Qed.

Lemma wrote_all_FunctionType_print (t : FunctionType) (n : N) :
  wrote_all (FunctionType_print t n) = FunctionType_named t.
Proof.
  unfold FunctionType_print, FunctionType_named. cbn [incIndent decIndent].
  rewrite !wrote_all_seq, wrote_all_for_each, wrote_all_printBasicType,
    wrote_all_emit_cstr.
  cbn [wrote_all emit doIndent andb].
  rewrite (forallb_pointwise _ (fun _ => true)), forallb_true.
  - now rewrite !andb_true_r.
  - intros p. rewrite !wrote_all_seq, wrote_all_printBasicType. reflexivity.
Qed.

Lemma wrote_all_Import_print (i : Import) (n : N) :
  wrote_all (Import_print i n) = Import_named i.
Proof.
  unfold Import_print, Import_named.
  rewrite !wrote_all_seq, wrote_all_FunctionType_print, !wrote_all_emit_cstr.
  cbn [wrote_all emit andb]. rewrite !andb_true_r.
  now rewrite !andb_assoc.
Qed.

Lemma wrote_all_Export_print (e : Export) (n : N) :
  wrote_all (Export_print e n)
  = Export_named e && no_fault (Var_fault (Export_value e)).
Proof.
  unfold Export_print, Export_named.
  rewrite !wrote_all_seq, wrote_all_Var_print, wrote_all_emit_cstr.
  cbn [wrote_all emit andb]. now rewrite !andb_true_r.
Qed.

Lemma wrote_all_Table_print (t : Table) (n : N) :
  wrote_all (Table_print t n)
  = forallb (fun v => no_fault (Var_fault v)) (Table_vars t).
Proof.
  unfold Table_print.
  rewrite !wrote_all_seq, wrote_all_for_each.
  cbn [wrote_all emit andb]. rewrite andb_true_r.
  apply forallb_pointwise. intros v.
  rewrite wrote_all_seq, wrote_all_Var_print. apply andb_true_r.
Qed.

Lemma wrote_all_printParamsAndResult (n : N) (result : BasicType)
    (params : list NameType) :
  wrote_all (printParamsAndResult n result params)
  = forallb NameType_named params.
Proof.
  unfold printParamsAndResult.
  rewrite !wrote_all_seq, wrote_all_for_each, wrote_all_printBasicType.
  cbn [wrote_all emit andb]. rewrite andb_true_r.
  apply forallb_pointwise. intros p.
  rewrite !wrote_all_seq, wrote_all_printBasicType, wrote_all_emit_cstr.
  cbn [wrote_all emit andb]. now rewrite !andb_true_r.
Qed.

(** ** Faults of the declarations *)

Lemma first_of_None {A : Type} (l : list A) :
  first_of (fun _ : A => None) l = None.
Proof. induction l as [| x l IH]; cbn; auto. Qed.

Lemma fault_of_printBasicType (t : BasicType) :
  fault_of (printBasicType t) = None.
Proof. now destruct t. Qed.

Lemma fault_of_FunctionType_print (t : FunctionType) (n : N) :
  fault_of (FunctionType_print t n) = None.
Proof.
  unfold FunctionType_print. cbn [incIndent decIndent].
  rewrite !fault_of_seq, fault_of_for_each, fault_of_printBasicType,
    fault_of_emit_cstr.
  cbn [fault_of emit doIndent or_else].
  rewrite (first_of_ext _ (fun _ => None)); [now rewrite first_of_None |].
  apply Forall_forall. intros p _.
  now rewrite !fault_of_seq, fault_of_printBasicType.
Qed.

Lemma fault_of_printParamsAndResult (n : N) (result : BasicType)
    (params : list NameType) :
  fault_of (printParamsAndResult n result params) = None.
Proof.
  unfold printParamsAndResult.
  rewrite !fault_of_seq, fault_of_for_each, fault_of_printBasicType.
  cbn [fault_of emit or_else]. rewrite or_else_None_r.
  rewrite (first_of_ext _ (fun _ => None)); [now rewrite first_of_None |].
  apply Forall_forall. intros p _.
  now rewrite !fault_of_seq, fault_of_printBasicType, fault_of_emit_cstr.
Qed.

Lemma fault_of_Import_print (i : Import) (n : N) :
  fault_of (Import_print i n) = None.
Proof.
  unfold Import_print.
  now rewrite !fault_of_seq, fault_of_FunctionType_print, !fault_of_emit_cstr.
Qed.

Section DeclarationFaults.

Variable show_float : N -> string.
Variable show_double : N -> string.

Lemma fault_of_Function_print (f : Function) (n : N) :
  fault_of (Function_print show_float show_double f n)
  = first_fault (Function_body f).
Proof.
  unfold Function_print, printFullLine. cbn [incIndent decIndent].
  rewrite !fault_of_seq, fault_of_printParamsAndResult, fault_of_for_each,
    fault_of_printFullLine_with, print_fault, fault_of_emit_cstr.
  cbn [fault_of emit doIndent or_else].
  rewrite (first_of_ext _ (fun _ => None)), first_of_None.
  - cbn [or_else]. apply or_else_None_r.
  - apply Forall_forall. intros p _.
    now rewrite !fault_of_seq, fault_of_printBasicType, fault_of_emit_cstr.
Qed.

Lemma wrote_all_Function_print (f : Function) (n : N) :
  wrote_all (Function_print show_float show_double f n)
  = Function_named f && no_fault (first_fault (Function_body f)).
Proof.
  unfold Function_print, printFullLine, printFullLine_with, Function_named.
  cbn [incIndent decIndent].
  rewrite !wrote_all_seq, wrote_all_printParamsAndResult,
    wrote_all_for_each, wrote_all_print, wrote_all_emit_cstr.
  cbn [wrote_all emit doIndent andb]. rewrite !andb_true_r.
  rewrite (forallb_pointwise _ NameType_named (Function_locals f)).
  - now rewrite !andb_assoc.
  - intros p. rewrite !wrote_all_seq, wrote_all_printBasicType,
      wrote_all_emit_cstr.
    cbn [wrote_all emit doIndent andb]. now rewrite !andb_true_r.
Qed.

(** [Module::print] returns with the stream good exactly when it meets no
    fault and streams no null name. *)
Lemma wrote_all_Module_print (m : Module) :
  wrote_all (Module_print show_float show_double m)
  = Module_named m && no_fault (Module_fault m).
Proof.
  unfold Module_print, Module_named, Module_fault.
  cbn [incIndent decIndent].
  rewrite !wrote_all_seq, !wrote_all_for_each, wrote_all_Table_print.
  cbn [wrote_all emit doIndent andb]. rewrite !andb_true_r.
  rewrite (forallb_pointwise _ FunctionType_named (functionTypes m)),
    (forallb_pointwise _ (fun i => Import_named (snd i)) (imports m)),
    (forallb_pointwise
       _ (fun e => Export_named e && no_fault (Var_fault (Export_value e)))
       (exports m)),
    (forallb_pointwise
       _ (fun f => Function_named f
                   && no_fault (first_fault (Function_body f)))
       (functions m)).
  - rewrite !forallb_andb, !no_fault_or_else, !no_fault_first_of.
    destruct (forallb FunctionType_named (functionTypes m));
      destruct (forallb (fun i => Import_named (snd i)) (imports m));
      destruct (forallb Export_named (exports m));
      destruct (forallb Function_named (functions m));
      destruct (forallb (fun e => no_fault (Var_fault (Export_value e)))
                        (exports m));
      destruct (forallb (fun v => no_fault (Var_fault v))
                        (Table_vars (table m)));
      reflexivity.
  - intros f. now rewrite wrote_all_line, wrote_all_Function_print.
  - intros e. now rewrite wrote_all_line, wrote_all_Export_print.
  - intros i. now rewrite wrote_all_line, wrote_all_Import_print.
  - intros x. now rewrite wrote_all_line, wrote_all_FunctionType_print.
Qed.

(** X4. Printing a function type or an import never stops, and leaves the
    stream good exactly when no name that it streams is null.
    [Module::print] stops with the first fault, in print order, of the
    identifiers of its exports, of the identifiers of its table and of the
    bodies of its functions; it returns exactly when there is none, and it
    returns with the stream good exactly when, besides, no name that it
    streams is null. *)
Theorem Module_print_fault (m : Module) :
  (forall t n,
     returned (FunctionType_print t n) = true /\
     ((exists s, FunctionType_print t n = Out s)
      <-> FunctionType_named t = true)) /\
  (forall i n,
     returned (Import_print i n) = true /\
     ((exists s, Import_print i n = Out s) <-> Import_named i = true)) /\
  fault_of (Module_print show_float show_double m) = Module_fault m /\
  ((exists s, Module_print show_float show_double m = Out s
              \/ Module_print show_float show_double m = Bad s) <->
   Module_fault m = None) /\
  ((exists s, Module_print show_float show_double m = Out s) <->
   Module_fault m = None /\ Module_named m = true).
Proof.
  assert (Hfault : fault_of (Module_print show_float show_double m)
                   = Module_fault m).
  { unfold Module_print, Module_fault. cbn [incIndent decIndent].
    rewrite !fault_of_seq, !fault_of_for_each.
    cbn [fault_of emit doIndent or_else].
    rewrite (first_of_ext _ (fun _ => None) (functionTypes m)),
      (first_of_ext _ (fun _ => None) (imports m)), !first_of_None.
    - cbn [or_else]. f_equal; [| f_equal].
      + apply first_of_ext, Forall_forall. intros e _.
        rewrite !fault_of_seq. unfold Export_print.
        rewrite !fault_of_seq, fault_of_Var_print, fault_of_emit_cstr.
        cbn [fault_of emit doIndent or_else]. now rewrite !or_else_None_r.
      + unfold Table_print.
        rewrite !fault_of_seq, fault_of_for_each.
        cbn [fault_of emit or_else]. rewrite or_else_None_r.
        apply first_of_ext, Forall_forall. intros v _.
        rewrite fault_of_seq, fault_of_Var_print. apply or_else_None_r.
      + rewrite or_else_None_r.
        apply first_of_ext, Forall_forall. intros f _.
        rewrite !fault_of_seq, fault_of_Function_print.
        cbn [fault_of emit doIndent or_else]. apply or_else_None_r.
    - apply Forall_forall. intros i _.
      now rewrite !fault_of_seq, fault_of_Import_print.
    - apply Forall_forall. intros t _.
      now rewrite !fault_of_seq, fault_of_FunctionType_print. }
  split; [| split; [| split; [exact Hfault | split]]].
  - intros t n. split.
    + unfold returned. now rewrite fault_of_FunctionType_print.
    + now rewrite <- wrote_all_iff, wrote_all_FunctionType_print.
  - intros i n. split.
    + unfold returned. now rewrite fault_of_Import_print.
    + now rewrite <- wrote_all_iff, wrote_all_Import_print.
  - rewrite <- Hfault.
    destruct (Module_print show_float show_double m) as [s | s | f s];
      cbn; split; try reflexivity; try discriminate.
    + intros _. exists s. now left.
    + intros _. exists s. now right.
    + intros [t [H | H]]; discriminate H.
  - rewrite <- wrote_all_iff, wrote_all_Module_print, andb_true_iff.
    unfold no_fault. destruct (Module_fault m); split; intros [H1 H2];
      try discriminate; auto.
Qed.

(** X16. [getBasicTypeSize] aborts on none and on no other type, and answers
    4 or 8 otherwise; the literals that [Literal::print] writes are those
    whose type has a size. *)
Theorem getBasicTypeSize_defined :
  (forall t, getBasicTypeSize t = Err Aborted <-> t = none) /\
  (forall t n, getBasicTypeSize t = Ok n -> n = 4%N \/ n = 8%N) /\
  (forall l,
     (exists n, getBasicTypeSize (Literal_type l) = Ok n) <->
     (exists s, Literal_print show_float show_double l = Out s)).
Proof.
  split; [| split].
  - intros t. destruct t; cbn; split; intros H;
      try discriminate H; reflexivity.
  - intros t n H. destruct t; cbn in H; try discriminate H;
      injection H as <-; auto.
  - intros l. destruct l; cbn; split; intros [x H];
      try discriminate H; eexists; reflexivity.
Qed.

End DeclarationFaults.

(** ** Delimiters and indentation of a printed module *)

Local Open Scope N_scope.

Section ModuleText.

Variable show_float : N -> string.
Variable show_double : N -> string.

Hypothesis show_float_plain : forall v, plain (show_float v) = true.
Hypothesis show_double_plain : forall v, plain (show_double v) = true.

Lemma Module_print_Out_named (m : Module) (s : string) :
  Module_print show_float show_double m = Out s -> Module_named m = true.
Proof.
  intros Hprint.
  pose proof (wrote_all_Module_print show_float show_double m) as H.
  rewrite Hprint in H. cbn [wrote_all] in H. symmetry in H.
  now apply andb_true_iff in H as [H _].
Qed.

(** X5. When [Module::print] returns and leaves the stream good, no name
    that it streamed was null; when, besides, the names and identifiers of
    the module hold no delimiter and no line break, the delimiters of the
    text are balanced, each closed on a line indented like the line it was
    opened on. *)
Theorem Module_print_well_nested (m : Module) (s : string) :
  Module_plain m = true ->
  Module_print show_float show_double m = Out s ->
  Module_named m = true /\ well_nested s = true.
Proof.
  intros Hplain Hprint. split; [now apply (Module_print_Out_named m s) |].
  unfold well_nested, scan_start.
  assert (H : scans (fun _ _ => true)
                    (Module_print show_float show_double m)
                    (mkScan [] (2 * 0) true) (mkScan [] 0 true)).
  { apply scans_Module_print
      with (Inv := fun _ _ => True) (room := fun _ => true)
           (switch_ok := true); auto.
    apply forallb_forall. intros f _. apply admits_always. }
  specialize (H s Hprint). change (2 * 0) with 0 in H. now rewrite H.
Qed.

(** X6. When, besides, the module has no import and no function body holds
    a [Switch] among the nodes printed or is nested deep enough for the
    indentation to wrap, every line of the text is indented by its nesting
    depth. *)
Theorem Module_print_depth_indented (m : Module) (s : string) :
  Module_plain m = true ->
  imports m = [] ->
  forallb (fun f => admits (fun k => k + 1 <? 2 ^ 32) false 2
                           (Function_body f)) (functions m) = true ->
  Module_print show_float show_double m = Out s ->
  Module_named m = true /\ depth_indented 0 s = true.
Proof.
  intros Hplain Himports Hadmits Hprint.
  split; [now apply (Module_print_Out_named m s) |].
  unfold depth_indented, scan_start.
  assert (H : scans (line_start_ok 0)
                    (Module_print show_float show_double m)
                    (mkScan [] (2 * 0) true) (mkScan [] 0 true)).
  { apply scans_Module_print
      with (Inv := fun opened k => 0 + N.of_nat (List.length opened) = k)
           (room := fun k => k + 1 <? 2 ^ 32) (switch_ok := false); auto.
    - apply line_start_ok_mid.
    - intros c opened k. apply line_start_ok_first.
    - intros opened k. apply line_start_ok_closing.
    - intros opened k Hinv Hroom. apply N.ltb_lt in Hroom.
      rewrite u32_inc by exact Hroom. cbn [List.length]. lia.
    - discriminate. }
  specialize (H s Hprint). change (2 * 0) with 0 in H. now rewrite H.
Qed.

End ModuleText.

Local Close Scope N_scope.

(** ** Instances *)

Lemma print_well_nested_witness :
  exists s,
    print (fun _ => "") (fun _ => "") example_expression 1 = Out s /\
    well_nested (indentation 1 ++ s) = true.
Proof.
  eexists. split; [vm_compute; reflexivity |].
  apply (print_well_nested (fun _ => "") (fun _ => "")
                           (fun _ => eq_refl) (fun _ => eq_refl)
                           example_expression 1).
  - reflexivity.
  - reflexivity.
  - vm_compute. reflexivity.
Defined.

Lemma print_depth_indented_witness :
  exists s,
    print (fun _ => "") (fun _ => "") example_expression 1 = Out s /\
    depth_indented 1 (indentation 1 ++ s) = true.
Proof.
  eexists. split; [vm_compute; reflexivity |].
  apply (print_depth_indented (fun _ => "") (fun _ => "")
                              (fun _ => eq_refl) (fun _ => eq_refl)
                              example_expression 1).
  - reflexivity.
  - reflexivity.
  - vm_compute. reflexivity.
  - vm_compute. reflexivity.
Defined.

Lemma Arena_layout_witness :
  exists ps a,
    alloc_all [repeat x01 16; repeat x02 4000; repeat x03 4000; repeat x04 4000]
              (mkArena [] 0) = Ok (ps, a) /\
    Forall2 well_placed ps [repeat x01 16; repeat x02 4000; repeat x03 4000; repeat x04 4000] /\
    ForallOrdPairs
      (fun x y => ends_before (fst x) (aligned_size (snd x)) (fst y))
      (combine ps [repeat x01 16; repeat x02 4000; repeat x03 4000; repeat x04 4000]).
Proof.
  destruct (alloc_all_spec [repeat x01 16; repeat x02 4000; repeat x03 4000; repeat x04 4000]
                           (mkArena [] 0))
    as (ps & a & Hrun & _).
  - split; cbn; [constructor | congruence].
  - repeat constructor.
  - exists ps, a. split; [exact Hrun |].
    apply (Arena_layout _ 0%Z ps a); [repeat constructor | exact Hrun].
Defined.

Lemma alloc_returns_iff_witness :
  alloc (repeat x00 (Z.to_nat 9993)) (mkArena [] 0) = Err AssertFailed /\
  ((exists p a', alloc [x01; x02] (mkArena [] 0) = Ok (p, a'))
   <-> (sizeof [x01; x02] <= 9992)%Z).
Proof.
  split.
  - apply (alloc_returns_iff (repeat x00 (Z.to_nat 9993)) (mkArena [] 0));
      vm_compute; reflexivity.
  - apply (alloc_returns_iff [x01; x02] (mkArena [] 0)).
    vm_compute. reflexivity.
Defined.

Lemma alloc_after_clear_witness :
  exists a',
    alloc [x01; x02] (clear (mkArena [fresh_chunk] 9000))
    = Ok (mkPointer 0 0, a') /\
    List.length (chunks a') = 1%nat /\
    index a' = aligned_size [x01; x02] /\
    read a' (mkPointer 0 0) 2 = [Some x01; Some x02].
Proof.
  apply (alloc_after_clear [x01; x02] (mkArena [fresh_chunk] 9000)).
  split; vm_compute; reflexivity.
Defined.

Lemma Module_print_well_nested_witness :
  exists s,
    Module_print (fun _ => "") (fun _ => "") example_module = Out s /\
    Module_named example_module = true /\
    well_nested s = true.
Proof.
  eexists. split; [vm_compute; reflexivity |].
  apply (Module_print_well_nested (fun _ => "") (fun _ => "")
                                  (fun _ => eq_refl) (fun _ => eq_refl)
                                  example_module).
  - reflexivity.
  - vm_compute. reflexivity.
Defined.

Lemma Module_print_depth_indented_witness :
  exists s,
    Module_print (fun _ => "") (fun _ => "") example_module_without_imports
    = Out s /\
    Module_named example_module_without_imports = true /\
    depth_indented 0 s = true.
Proof.
  eexists. split; [vm_compute; reflexivity |].
  apply (Module_print_depth_indented (fun _ => "") (fun _ => "")
                                     (fun _ => eq_refl) (fun _ => eq_refl)
                                     example_module_without_imports).
  - reflexivity.
  - reflexivity.
  - vm_compute. reflexivity.
  - vm_compute. reflexivity.
Defined.

Lemma getBasicTypeSize_defined_witness :
  (4 = 4 \/ 4 = 8)%N.
Proof.
  destruct (getBasicTypeSize_defined (fun _ => "") (fun _ => ""))
    as (_ & Hsize & _).
  apply (Hsize f32 4%N). reflexivity.
Defined.

(** The lines of a function type inside an import are indented one level
    less than they are nested. *)
Example example_module_imports_depth :
  exists s,
    Module_print (fun _ => "") (fun _ => "") example_module = Out s /\
    depth_indented 0 s = false.
Proof. eexists. split; vm_compute; reflexivity. Qed.

(** ** FunctionType equality, continued *)

(** X17. [operator==] on FunctionType is transitive, and [operator!=] holds
    exactly when the names are different pointers, the result types differ
    or the parameter vectors differ. *)
Theorem FunctionType_eq_trans_neq :
  (forall a b c,
     FunctionType_eq a b = true -> FunctionType_eq b c = true ->
     FunctionType_eq a c = true) /\
  (forall a b,
     FunctionType_neq a b = true <->
     Name_eqb (FunctionType_name a) (FunctionType_name b) = false \/
     FunctionType_result a <> FunctionType_result b \/
     FunctionType_params a <> FunctionType_params b).
Proof.
  split.
  - intros a b c Hab Hbc.
    apply FunctionType_eq_iff in Hab as (Hn1 & Hr1 & Hp1).
    apply FunctionType_eq_iff in Hbc as (Hn2 & Hr2 & Hp2).
    apply FunctionType_eq_iff. unfold Name_eqb in *.
    apply N.eqb_eq in Hn1. apply N.eqb_eq in Hn2.
    repeat split; [apply N.eqb_eq |..]; congruence.
  - intros a b. unfold FunctionType_neq. rewrite negb_true_iff. split.
    + intros H.
      destruct (Name_eqb (FunctionType_name a) (FunctionType_name b)) eqn:En;
        [| now left].
      destruct (BasicType_eqb (FunctionType_result a) (FunctionType_result b))
        eqn:Er.
      * right. right. intros Hp. apply BasicType_eqb_eq in Er.
        assert (Heq : FunctionType_eq a b = true)
          by (apply FunctionType_eq_iff; auto).
        congruence.
      * right. left. intros Hr. apply BasicType_eqb_eq in Hr. congruence.
    + intros H. destruct (FunctionType_eq a b) eqn:E; [| reflexivity].
      apply FunctionType_eq_iff in E as (Hn & Hr & Hp).
      destruct H as [H | [H | H]]; [congruence | contradiction | contradiction].
Qed.

Lemma FunctionType_eq_trans_neq_witness :
  FunctionType_eq (mkFunctionType (mkName "t" 2000000) f32 [i64])
                  (mkFunctionType (mkName "t" 2000000) f32 [i64]) = true.
Proof.
  destruct FunctionType_eq_trans_neq as [Htrans _].
  apply (Htrans _ (mkFunctionType (mkName "t" 2000000) f32 [i64]) _);
    reflexivity.
Defined.

(** ** What an allocation leaves alone *)

(** X10. An allocation adds at most one chunk, removes none, and changes no
    chunk but the last one after the call. *)
Theorem alloc_touches_last_chunk (T : list byte) (a a' : Arena)
    (p : pointer) :
  Arena_wf a -> accepted T ->
  alloc T a = Ok (p, a') ->
  (List.length (chunks a) <= List.length (chunks a') <=
   S (List.length (chunks a)))%nat /\
  S (pointer_chunk p) = List.length (chunks a') /\
  (forall i, (S i < List.length (chunks a'))%nat ->
             nth i (chunks a') [] = nth i (chunks a) []).
Proof.
  intros Hwf Hacc Halloc.
  destruct (alloc_shape T a Hwf Hacc)
    as (init & c & off & Hshape & _ & _ & _ & Hcase).
  rewrite Halloc in Hshape. injection Hshape as -> ->.
  cbn [chunks pointer_chunk]. rewrite length_app. cbn [List.length].
  destruct Hcase as [[Ha _] | [Ha _]]; rewrite Ha.
  - split; [lia |]. split; [lia |].
    intros i Hi. apply app_nth1. lia.
  - rewrite length_app. cbn [List.length]. split; [lia |]. split; [lia |].
    intros i Hi. rewrite !app_nth1 by lia. reflexivity.
Qed.

Lemma alloc_touches_last_chunk_witness :
  exists p a',
    alloc [x01; x02] (mkArena [] 0) = Ok (p, a') /\
    S (pointer_chunk p) = List.length (chunks a').
Proof.
  destruct (alloc_step [x01; x02] (mkArena [] 0)) as (p & a' & Halloc & _).
  - split; cbn; [constructor | congruence].
  - split; vm_compute; reflexivity.
  - exists p, a'. split; [exact Halloc |].
    apply (alloc_touches_last_chunk [x01; x02] (mkArena [] 0) a' p).
    + split; cbn; [constructor | congruence].
    + split; vm_compute; reflexivity.
    + exact Halloc.
Defined.
